(** * Civitai catalog client: URL building, request handling and schemas

    A shallow embedding of [CivitaiClient] (the client class: [buildUrl],
    [makeRequest], the list, lookup and convenience methods) and of the zod
    schemas of [src/types.ts], with the properties of the specification
    stated and proved over them.

    Conventions of the embedding.
    - A JavaScript string is a [string] (its bytes).
    - A JavaScript number is a [Z]: the numbers this client handles as
      parameters (ids, page, limit) and the HTTP status are integers, and
      [number_toString] prints them in decimal as [Number.prototype.toString]
      does for integers below 1e21.  The validators only test that a decoded
      value is a number and never look at its magnitude.
    - The platform classes the client calls are modelled after their
      standards as far as the client uses them: [URL] and [URLSearchParams]
      (the list of pairs, [set], [append], the urlencoded serializer and
      parser), [fetch] as a function from the request to what the call
      settles to, and the zod combinators [types.ts] is written with.
    - A value of a parameter bag is a scalar, an array of scalars,
      [undefined] or [null], as the parameter interfaces declare; a decoded
      response is a [value], where [VUndefined] is what reading a missing
      property gives. *)

From Stdlib Require Import String Ascii List ZArith Bool Lia DecimalString.
Import ListNotations.

Local Open Scope string_scope.
Local Open Scope list_scope.

Infix "+:+" := String.append (at level 60, right associativity).

(** ** Strings and numbers *)

Definition number := Z.

(** [n.toString()] and the template-literal rendering of a number. *)
Definition number_toString (n : number) : string :=
  NilZero.string_of_int (Z.to_int n).

(** [hay.includes(needle)] *)
Fixpoint includes (needle hay : string) : bool :=
  String.prefix needle hay ||
  match hay with
  | EmptyString => false
  | String _ rest => includes needle rest
  end.

(** Cuts [s] at the first occurrence of [c]: the part before it, and the
    part after it when [c] occurs. *)
Fixpoint cut (c : ascii) (s : string) : string * option string :=
  match s with
  | EmptyString => (EmptyString, None)
  | String a rest =>
      if Ascii.eqb a c then (EmptyString, Some rest)
      else let '(before, after) := cut c rest in (String a before, after)
  end.

(** Splits [s] at every occurrence of [c]. *)
Fixpoint split_on (c : ascii) (s : string) : list string :=
  match s with
  | EmptyString => [EmptyString]
  | String a rest =>
      if Ascii.eqb a c then EmptyString :: split_on c rest
      else match split_on c rest with
           | [] => [String a EmptyString]
           | piece :: pieces => String a piece :: pieces
           end
  end.

Fixpoint join (sep : string) (pieces : list string) : string :=
  match pieces with
  | [] => EmptyString
  | [p] => p
  | p :: rest => p +:+ sep +:+ join sep rest
  end.

Definition string_map (f : ascii -> ascii) : string -> string :=
  fix go s := match s with
              | EmptyString => EmptyString
              | String a rest => String (f a) (go rest)
              end.

(** ** The application/x-www-form-urlencoded format of URLSearchParams *)

Definition is_alnum (a : ascii) : bool :=
  let n := nat_of_ascii a in
  ((48 <=? n) && (n <=? 57) || (65 <=? n) && (n <=? 90)
   || (97 <=? n) && (n <=? 122))%nat.

(** Bytes the serializer leaves as they are: alphanumerics and [* - . _]. *)
Definition urlencoded_plain (a : ascii) : bool :=
  is_alnum a
  || Ascii.eqb a "*" || Ascii.eqb a "-" || Ascii.eqb a "." || Ascii.eqb a "_".

Definition hex_digit (n : nat) : ascii :=
  nth n (list_ascii_of_string "0123456789ABCDEF") "0"%char.

Definition hex_value (a : ascii) : option nat :=
  let n := nat_of_ascii a in
  if ((48 <=? n) && (n <=? 57))%nat then Some (n - 48)%nat
  else if ((65 <=? n) && (n <=? 70))%nat then Some (n - 55)%nat
  else if ((97 <=? n) && (n <=? 102))%nat then Some (n - 87)%nat
  else None.

Definition percent_encode_byte (a : ascii) : string :=
  let n := nat_of_ascii a in
  String "%" (String (hex_digit (n / 16)) (String (hex_digit (n mod 16)) "")).

Fixpoint urlencode (s : string) : string :=
  match s with
  | EmptyString => EmptyString
  | String a rest =>
      (if Ascii.eqb a " " then "+"
       else if urlencoded_plain a then String a ""
       else percent_encode_byte a) +:+ urlencode rest
  end.

Fixpoint percent_decode (s : string) : string :=
  match s with
  | String "%" (String h (String l rest) as tail) =>
      match hex_value h, hex_value l with
      | Some x, Some y => String (ascii_of_nat (16 * x + y)) (percent_decode rest)
      | _, _ => String "%" (percent_decode tail)
      end
  | String a rest => String a (percent_decode rest)
  | EmptyString => EmptyString
  end.

Definition plus_to_space (a : ascii) : ascii :=
  if Ascii.eqb a "+" then " "%char else a.

Definition urldecode (s : string) : string :=
  percent_decode (string_map plus_to_space s).

(** The list of name-value pairs of a URLSearchParams object. *)
Definition searchParams := list (string * string).

Definition urlencoded_serialize (l : searchParams) : string :=
  join "&" (map (fun p => urlencode (fst p) +:+ "=" +:+ urlencode (snd p)) l).

Definition urlencoded_parse_piece (piece : string) : string * string :=
  let '(name, value) := cut "=" piece in
  (urldecode name, urldecode (match value with Some v => v | None => "" end)).

Definition urlencoded_parse (q : string) : searchParams :=
  map urlencoded_parse_piece
      (filter (fun piece => negb (piece =? "")) (split_on "&" q)).

(** [searchParams.append(name, value)] *)
Definition sp_append (name value : string) (l : searchParams) : searchParams :=
  l ++ [(name, value)].

Definition sp_delete (name : string) (l : searchParams) : searchParams :=
  filter (fun p => negb (fst p =? name)) l.

(** [searchParams.set(name, value)]: the first pair named [name] takes the
    value and the other pairs of that name are removed; without such a pair
    the new pair is appended. *)
Fixpoint sp_set (name value : string) (l : searchParams) : searchParams :=
  match l with
  | [] => [(name, value)]
  | (n, v) :: rest =>
      if n =? name then (name, value) :: sp_delete name rest
      else (n, v) :: sp_set name value rest
  end.

(** [searchParams.getAll(name)] *)
Definition sp_getAll (name : string) (l : searchParams) : list string :=
  map snd (filter (fun p => fst p =? name) l).

(** [searchParams.has(name)] *)
Definition sp_has (name : string) (l : searchParams) : bool :=
  existsb (fun p => fst p =? name) l.

(** ** URL objects

    The part of the URL class the client relies on.  [new_URL] cuts the
    input at the first [#] and the first [?] and parses the query into the
    list of [url.searchParams]; a change of that list rewrites the query.
    The text of the input is kept as written: the trimming, the escaping
    and the dot-segment normalisation the platform applies to what it is
    given are not modelled, and the URLs the client builds from its
    literals and decimal ids need none. *)
Record URL := mkURL {
  url_base : string;              (* scheme, host and path *)
  url_query : option string;      (* the query, without its [?] *)
  url_fragment : option string;   (* the fragment, without its [#] *)
  url_searchParams : searchParams (* the list behind [url.searchParams] *)
}.

Definition new_URL (input : string) : URL :=
  let '(rest, fragment) := cut "#" input in
  let '(base, query) := cut "?" rest in
  mkURL base query fragment
        (match query with Some q => urlencoded_parse q | None => [] end).

(** The update a URLSearchParams object makes to its URL after a change:
    the query becomes the serialized list, or null when that is empty. *)
Definition URL_update (url : URL) (l : searchParams) : URL :=
  let q := urlencoded_serialize l in
  mkURL (url_base url)
        (if q =? "" then None else Some q)
        (url_fragment url) l.

Definition URL_searchParams_set (name value : string) (url : URL) : URL :=
  URL_update url (sp_set name value (url_searchParams url)).

Definition URL_searchParams_append (name value : string) (url : URL) : URL :=
  URL_update url (sp_append name value (url_searchParams url)).

(** [url.toString()] *)
Definition URL_toString (url : URL) : string :=
  url_base url
  +:+ match url_query url with Some q => "?" +:+ q | None => "" end
  +:+ match url_fragment url with Some f => "#" +:+ f | None => "" end.

(** ** Parameter bags

    The values a parameter interface ([ModelsParams], [ImagesParams],
    [CreatorsParams], [TagsParams]) gives to a key: a number, a string, a
    boolean, an array of those, or nothing ([undefined], and [null], which
    [buildUrl] tests for). *)
Inductive scalar :=
| SBool (b : bool)
| SNum (n : number)
| SStr (s : string).

Inductive param :=
| PUndefined
| PNull
| PScalar (x : scalar)
| PArray (xs : list scalar).

(** [v.toString()] *)
Definition scalar_toString (x : scalar) : string :=
  match x with
  | SBool true => "true"
  | SBool false => "false"
  | SNum n => number_toString n
  | SStr s => s
  end.

(** An object used as a parameter bag: its own properties, in the order
    [Object.entries] lists them.  An object has each key once. *)
Definition params := list (string * param).

Definition keys (o : params) : list string := map fst o.

Fixpoint obj_get (key : string) (o : params) : option param :=
  match o with
  | [] => None
  | (k, v) :: rest => if k =? key then Some v else obj_get key rest
  end.

(** Defining a property: an existing key keeps its place and takes the new
    value, a new key goes last. *)
Fixpoint obj_set (key : string) (value : param) (o : params) : params :=
  match o with
  | [] => [(key, value)]
  | (k, v) :: rest =>
      if k =? key then (k, value) :: rest
      else (k, v) :: obj_set key value rest
  end.

(** The object literal [{ ...target, ...source }]. *)
Definition obj_spread (target source : params) : params :=
  fold_left (fun o entry => obj_set (fst entry) (snd entry) o) source target.

(** ** The client: URL building *)

Record CivitaiClient := mkClient {
  apiKey : option string   (* [apiKey?: string] *)
}.

Definition baseUrl : string := "https://civitai.com/api/v1".

(** The token the client uses: [this.apiKey] when it is truthy. *)
Definition configured_token (this : CivitaiClient) : option string :=
  match apiKey this with
  | Some key => if key =? "" then None else Some key
  | None => None
  end.

(** [value !== undefined && value !== null && value !== ''] *)
Definition is_sent (value : param) : bool :=
  match value with
  | PUndefined | PNull | PScalar (SStr EmptyString) => false
  | _ => true
  end.

(** The body of the [forEach] over [Object.entries(params)]. *)
Definition add_param (url : URL) (entry : string * param) : URL :=
  let '(key, value) := entry in
  if is_sent value then
    match value with
    | PArray xs =>
        fold_left (fun u v => URL_searchParams_append key (scalar_toString v) u)
                  xs url
    | PScalar x => URL_searchParams_set key (scalar_toString x) url
    | _ => url
    end
  else url.

(** The URL object [buildUrl] has built when it returns. *)
Definition buildUrl_url (this : CivitaiClient) (endpoint : string)
    (ps : params) : URL :=
  let url := new_URL (baseUrl +:+ endpoint) in
  let url := match configured_token this with
             | Some key => URL_searchParams_set "token" key url
             | None => url
             end in
  fold_left add_param ps url.

Definition buildUrl (this : CivitaiClient) (endpoint : string)
    (ps : params) : string :=
  URL_toString (buildUrl_url this endpoint ps).

(** [getDownloadUrl(modelVersionId)] *)
Definition getDownloadUrl (this : CivitaiClient) (modelVersionId : number)
    : string :=
  buildUrl this ("/download/models/" +:+ number_toString modelVersionId) [].

(** ** Decoded values and the zod combinators

    What [response.json()] yields and what a schema returns: JavaScript
    values.  A decoded JSON document holds no [VUndefined]; reading a
    property an object lacks gives [VUndefined]. *)
#[warnings="-register-all"]
Inductive value :=
| VUndefined
| VNull
| VBool (b : bool)
| VNum (n : number)
| VStr (s : string)
| VArr (items : list value)
| VObj (fields : list (string * value)).

(** [data[key]] *)
Fixpoint prop (key : string) (fields : list (string * value)) : value :=
  match fields with
  | [] => VUndefined
  | (k, v) :: rest => if k =? key then v else prop key rest
  end.

(** [key in data] *)
Definition has_prop (key : string) (fields : list (string * value)) : bool :=
  existsb (fun f => fst f =? key) fields.

Definition is_undefined (v : value) : bool :=
  match v with VUndefined => true | _ => false end.

Inductive path_elem := PKey (k : string) | PIndex (i : nat).

Inductive issue_code := invalid_type | invalid_enum_value | invalid_union.

Record issue := mkIssue {
  code : issue_code;
  path : list path_elem
}.

Definition under (p : path_elem) (i : issue) : issue :=
  mkIssue (code i) (p :: path i).

(** The result of running a schema: the output value, or the issues. *)
Inductive parsed :=
| Valid (out : value)
| Invalid (issues : list issue).

Definition schema := value -> parsed.

Definition is_valid (r : parsed) : bool :=
  match r with Valid _ => true | Invalid _ => false end.

Definition z_number : schema := fun input =>
  match input with
  | VNum _ => Valid input
  | _ => Invalid [mkIssue invalid_type []]
  end.

Definition z_string : schema := fun input =>
  match input with
  | VStr _ => Valid input
  | _ => Invalid [mkIssue invalid_type []]
  end.

Definition z_boolean : schema := fun input =>
  match input with
  | VBool _ => Valid input
  | _ => Invalid [mkIssue invalid_type []]
  end.

Definition z_any : schema := fun input => Valid input.

Definition z_enum (values : list string) : schema := fun input =>
  match input with
  | VStr s =>
      if existsb (String.eqb s) values then Valid input
      else Invalid [mkIssue invalid_enum_value []]
  | _ => Invalid [mkIssue invalid_type []]
  end.

Definition z_optional (inner : schema) : schema := fun input =>
  match input with
  | VUndefined => Valid VUndefined
  | _ => inner input
  end.

Definition z_nullable (inner : schema) : schema := fun input =>
  match input with
  | VNull => Valid VNull
  | _ => inner input
  end.

(** The first option that accepts the input gives the result. *)
Fixpoint z_union (options : list schema) : schema := fun input =>
  match options with
  | [] => Invalid [mkIssue invalid_union []]
  | option :: others =>
      match option input with
      | Valid out => Valid out
      | Invalid _ => z_union others input
      end
  end.

(** Runs [element] on the items from index [i] on; every item is checked
    and the issues of all of them are gathered. *)
Fixpoint z_array_items (element : schema) (i : nat) (items : list value)
    : list issue + list value :=
  match items with
  | [] => inr []
  | item :: rest =>
      match element item, z_array_items element (S i) rest with
      | Valid out, inr outs => inr (out :: outs)
      | Valid _, inl issues => inl issues
      | Invalid issues, inr _ => inl (map (under (PIndex i)) issues)
      | Invalid issues, inl more => inl (map (under (PIndex i)) issues ++ more)
      end
  end.

Definition z_array (element : schema) : schema := fun input =>
  match input with
  | VArr items =>
      match z_array_items element 0 items with
      | inr outs => Valid (VArr outs)
      | inl issues => Invalid issues
      end
  | _ => Invalid [mkIssue invalid_type []]
  end.

Fixpoint z_record_entries (element : schema) (fields : list (string * value))
    : list issue + list (string * value) :=
  match fields with
  | [] => inr []
  | (k, v) :: rest =>
      match element v, z_record_entries element rest with
      | Valid out, inr outs => inr ((k, out) :: outs)
      | Valid _, inl issues => inl issues
      | Invalid issues, inr _ => inl (map (under (PKey k)) issues)
      | Invalid issues, inl more => inl (map (under (PKey k)) issues ++ more)
      end
  end.

(** [z.record(element)]: an object with string keys, each value checked. *)
Definition z_record (element : schema) : schema := fun input =>
  match input with
  | VObj fields =>
      match z_record_entries element fields with
      | inr outs => Valid (VObj outs)
      | inl issues => Invalid issues
      end
  | _ => Invalid [mkIssue invalid_type []]
  end.

(** The keys of the shape are checked one by one against [data[key]]; the
    output has a key when its value is defined or the input had the key,
    and keys outside the shape are dropped. *)
Fixpoint z_object_fields (shape : list (string * schema))
    (data : list (string * value)) : list issue + list (string * value) :=
  match shape with
  | [] => inr []
  | (key, field) :: rest =>
      match field (prop key data), z_object_fields rest data with
      | Valid out, inr outs =>
          inr (if is_undefined out && negb (has_prop key data) then outs
               else (key, out) :: outs)
      | Valid _, inl issues => inl issues
      | Invalid issues, inr _ => inl (map (under (PKey key)) issues)
      | Invalid issues, inl more => inl (map (under (PKey key)) issues ++ more)
      end
  end.

Definition z_object (shape : list (string * schema)) : schema := fun input =>
  match input with
  | VObj data =>
      match z_object_fields shape data with
      | inr outs => Valid (VObj outs)
      | inl issues => Invalid issues
      end
  | _ => Invalid [mkIssue invalid_type []]
  end.

(** ** The schemas of [types.ts] *)

Definition NSFWLevel : schema := z_enum ["None"; "Soft"; "Mature"; "X"].

Definition ModelType_values : list string :=
  ["Checkpoint"; "TextualInversion"; "Hypernetwork"; "AestheticGradient";
   "LORA"; "Controlnet"; "Poses"].

Definition ModelType : schema := z_enum ModelType_values.

Definition ModelMode : schema :=
  z_optional (z_nullable (z_enum ["Archived"; "TakenDown"])).
Definition SortOrder : schema :=
  z_enum ["Highest Rated"; "Most Downloaded"; "Newest"].
Definition TimePeriod : schema :=
  z_enum ["AllTime"; "Year"; "Month"; "Week"; "Day"].
Definition ImageSort : schema :=
  z_enum ["Most Reactions"; "Most Comments"; "Newest"].
Definition CommercialUse : schema := z_enum ["None"; "Image"; "Rent"; "Sell"].
Definition FileFormat : schema := z_enum ["SafeTensor"; "PickleTensor"; "Other"].
Definition FileSize : schema := z_enum ["full"; "pruned"].
Definition FloatingPoint : schema := z_enum ["fp16"; "fp32"; "bf16"].

Definition MetadataSchema : schema := z_object [
  ("totalItems", z_optional z_number);
  ("currentPage", z_optional z_number);
  ("pageSize", z_optional z_number);
  ("totalPages", z_optional z_number);
  ("nextPage", z_optional z_string);
  ("prevPage", z_optional z_string);
  ("nextCursor", z_optional (z_union [z_number; z_string]))
].

Definition StatsSchema : schema := z_object [
  ("downloadCount", z_optional z_number);
  ("favoriteCount", z_optional z_number);
  ("commentCount", z_optional z_number);
  ("ratingCount", z_optional z_number);
  ("rating", z_optional z_number);
  ("cryCount", z_optional z_number);
  ("laughCount", z_optional z_number);
  ("likeCount", z_optional z_number);
  ("heartCount", z_optional z_number);
  ("dislikeCount", z_optional z_number)
].

Definition CreatorSchema : schema := z_object [
  ("username", z_string);
  ("image", z_optional (z_nullable z_string));
  ("modelCount", z_optional z_number);
  ("link", z_optional z_string)
].

Definition FileMetadataSchema : schema := z_optional (z_object [
  ("fp", z_optional (z_nullable FloatingPoint));
  ("size", z_optional (z_nullable FileSize));
  ("format", z_optional (z_nullable FileFormat))
]).

Definition ModelFileSchema : schema := z_object [
  ("sizeKb", z_optional z_number);
  ("pickleScanResult", z_optional z_string);
  ("virusScanResult", z_optional z_string);
  ("scannedAt", z_optional (z_nullable z_string));
  ("primary", z_optional z_boolean);
  ("metadata", FileMetadataSchema)
].

Definition ImageSchema : schema := z_object [
  ("id", z_optional z_number);
  ("url", z_string);
  ("hash", z_string);
  ("width", z_number);
  ("height", z_number);
  ("nsfw", z_optional z_boolean);
  ("nsfwLevel", z_optional (z_union [NSFWLevel; z_number]));
  ("createdAt", z_optional z_string);
  ("postId", z_optional z_number);
  ("stats", z_optional StatsSchema);
  ("meta", z_optional (z_nullable (z_record z_any)));
  ("username", z_optional z_string);
  ("modelVersionIds", z_optional (z_array z_number));
  ("type", z_optional z_string);
  ("browsingLevel", z_optional z_number)
].

Definition ModelVersionSchema : schema := z_object [
  ("id", z_number);
  ("name", z_string);
  ("description", z_optional (z_nullable z_string));
  ("createdAt", z_optional z_string);
  ("downloadUrl", z_optional z_string);
  ("trainedWords", z_optional (z_array z_string));
  ("files", z_optional (z_array ModelFileSchema));
  ("images", z_optional (z_array ImageSchema));
  ("stats", z_optional StatsSchema);
  ("index", z_optional z_number);
  ("baseModel", z_optional z_string)
].

Definition ModelSchema_shape : list (string * schema) := [
  ("id", z_number);
  ("name", z_string);
  ("description", z_string);
  ("type", ModelType);
  ("nsfw", z_boolean);
  ("tags", z_array z_string);
  ("mode", ModelMode);
  ("creator", CreatorSchema);
  ("stats", z_optional StatsSchema);
  ("modelVersions", z_array ModelVersionSchema);
  ("poi", z_optional z_boolean)
].

Definition ModelSchema : schema := z_object ModelSchema_shape.

Definition TagSchema : schema := z_object [
  ("name", z_string);
  ("modelCount", z_optional z_number);
  ("link", z_optional z_string)
].

Definition ModelsResponseSchema : schema := z_object [
  ("items", z_array ModelSchema);
  ("metadata", MetadataSchema)
].

Definition ImagesResponseSchema : schema := z_object [
  ("items", z_array ImageSchema);
  ("metadata", MetadataSchema)
].

Definition CreatorsResponseSchema : schema := z_object [
  ("items", z_array CreatorSchema);
  ("metadata", MetadataSchema)
].

Definition TagsResponseSchema : schema := z_object [
  ("items", z_array TagSchema);
  ("metadata", MetadataSchema)
].

Definition ModelVersionResponseSchema : schema := z_object [
  ("id", z_number);
  ("name", z_string);
  ("description", z_string);
  ("model", z_object [
     ("name", z_string);
     ("type", ModelType);
     ("nsfw", z_boolean);
     ("poi", z_optional z_boolean);
     ("mode", ModelMode)
   ]);
  ("modelId", z_number);
  ("createdAt", z_string);
  ("downloadUrl", z_string);
  ("trainedWords", z_array z_string);
  ("files", z_array ModelFileSchema);
  ("stats", StatsSchema);
  ("images", z_array ImageSchema)
].

(** ** The client: requests

    A computation either completes with a value or throws.  What a [catch]
    clause receives is an [Error] with its message, or some other value. *)
Inductive thrown :=
| ErrorObject (message : string)
| OtherValue.

Inductive completion (A : Type) :=
| Normal (a : A)
| Throws (e : thrown).
Arguments Normal {A} a.
Arguments Throws {A} e.

Definition bind {A B} (c : completion A) (k : A -> completion B)
    : completion B :=
  match c with
  | Normal a => k a
  | Throws e => Throws e
  end.

Notation "x <- c ;; k" := (bind c (fun x => k))
  (at level 61, c at next level, right associativity).

Definition try_catch {A} (body : completion A)
    (handler : thrown -> completion A) : completion A :=
  match body with
  | Normal a => Normal a
  | Throws e => handler e
  end.

(** What [fetch] resolves to: the status line and what [response.json()]
    settles to. *)
Record Response := mkResponse {
  status : number;
  statusText : string;
  json : completion value
}.

(** [response.ok] *)
Definition ok (response : Response) : bool :=
  ((200 <=? status response) && (status response <=? 299))%Z.

Record Request := mkRequest {
  request_url : string;
  request_headers : list (string * string)
}.

(** The network: what the one call of [fetch] settles to for a request. *)
Definition network := Request -> completion Response.

Definition header (name : string) (headers : list (string * string))
    : option string :=
  option_map snd (find (fun h => fst h =? name) headers).

(** The [headers] object literal of [makeRequest]. *)
Definition headers_of (this : CivitaiClient) : list (string * string) :=
  ("Content-Type", "application/json")
  :: match configured_token this with
     | Some key => [("Authorization", "Bearer " +:+ key)]
     | None => []
     end.

Definition request_of (this : CivitaiClient) (url : string) : Request :=
  mkRequest url (headers_of this).

(** [error instanceof Error ? error.message : 'Unknown error'] *)
Definition message_of (error : thrown) : string :=
  match error with
  | ErrorObject message => message
  | OtherValue => "Unknown error"
  end.

Definition default {A} (d : A) (arg : option A) : A :=
  match arg with Some a => a | None => d end.

Definition str (s : string) : param := PScalar (SStr s).
Definition num (n : number) : param := PScalar (SNum n).

(** The parameter objects of the helper methods. *)
Definition searchModels_params (query : string) (options : params) : params :=
  obj_spread [("query", str query)] options.

Definition searchModelsByTag_params (tag : string) (options : params)
    : params :=
  obj_spread [("tag", str tag)] options.

Definition searchModelsByCreator_params (username : string)
    (options : params) : params :=
  obj_spread [("username", str username)] options.

Definition getModelsByType_params (type : string) (options : params)
    : params :=
  obj_spread [("types", PArray [SStr type])] options.

Definition getPopularModels_params (period : option string)
    (limit : option number) : params :=
  [("sort", str "Most Downloaded");
   ("period", str (default "Week" period));
   ("limit", num (default 20%Z limit));
   ("nsfw", PScalar (SBool false))].

Definition getLatestModels_params (limit : option number) : params :=
  [("sort", str "Newest");
   ("limit", num (default 20%Z limit));
   ("nsfw", PScalar (SBool false))].

Definition getTopRatedModels_params (period : option string)
    (limit : option number) : params :=
  [("sort", str "Highest Rated");
   ("period", str (default "AllTime" period));
   ("limit", num (default 20%Z limit));
   ("nsfw", PScalar (SBool false))].

Section Requests.

(** The message of a ZodError: the text zod renders for its issues, which
    the client forwards without looking at it. *)
Variable zod_message : list issue -> string.

(** [schema.parse(data)] *)
Definition parse (s : schema) (data : value) : completion value :=
  match s data with
  | Valid out => Normal out
  | Invalid issues => Throws (ErrorObject (zod_message issues))
  end.

Definition makeRequest (this : CivitaiClient) (fetch : network)
    (url : string) (s : schema) : completion value :=
  try_catch
    (response <- fetch (request_of this url) ;;
     if negb (ok response) then
       Throws (ErrorObject ("HTTP " +:+ number_toString (status response)
                            +:+ ": " +:+ statusText response))
     else
       data <- json response ;;
       parse s data)
    (fun error =>
       Throws (ErrorObject ("API request failed: " +:+ message_of error))).

Definition getModels this fetch (ps : params) :=
  makeRequest this fetch (buildUrl this "/models" ps) ModelsResponseSchema.

Definition getModel this fetch (modelId : number) :=
  makeRequest this fetch
    (buildUrl this ("/models/" +:+ number_toString modelId) []) ModelSchema.

Definition getModelVersion this fetch (modelVersionId : number) :=
  makeRequest this fetch
    (buildUrl this ("/model-versions/" +:+ number_toString modelVersionId) [])
    ModelVersionResponseSchema.

Definition getModelVersionByHash this fetch (hash : string) :=
  makeRequest this fetch
    (buildUrl this ("/model-versions/by-hash/" +:+ hash) [])
    ModelVersionResponseSchema.

Definition getImages this fetch (ps : params) :=
  makeRequest this fetch (buildUrl this "/images" ps) ImagesResponseSchema.

Definition getCreators this fetch (ps : params) :=
  makeRequest this fetch (buildUrl this "/creators" ps) CreatorsResponseSchema.

Definition getTags this fetch (ps : params) :=
  makeRequest this fetch (buildUrl this "/tags" ps) TagsResponseSchema.

Definition searchModels this fetch (query : string) (options : params) :=
  getModels this fetch (searchModels_params query options).

Definition searchModelsByTag this fetch (tag : string) (options : params) :=
  getModels this fetch (searchModelsByTag_params tag options).

Definition searchModelsByCreator this fetch (username : string)
    (options : params) :=
  getModels this fetch (searchModelsByCreator_params username options).

Definition getModelsByType this fetch (type : string) (options : params) :=
  getModels this fetch (getModelsByType_params type options).

Definition getPopularModels this fetch (period : option string)
    (limit : option number) :=
  getModels this fetch (getPopularModels_params period limit).

Definition getLatestModels this fetch (limit : option number) :=
  getModels this fetch (getLatestModels_params limit).

Definition getTopRatedModels this fetch (period : option string)
    (limit : option number) :=
  getModels this fetch (getTopRatedModels_params period limit).

End Requests.

(** The operations of the client that call the network, with their
    arguments. *)
Inductive operation :=
| GetModels (ps : params)
| GetModel (modelId : number)
| GetModelVersion (modelVersionId : number)
| GetModelVersionByHash (hash : string)
| GetImages (ps : params)
| GetCreators (ps : params)
| GetTags (ps : params)
| SearchModels (query : string) (options : params)
| SearchModelsByTag (tag : string) (options : params)
| SearchModelsByCreator (username : string) (options : params)
| GetModelsByType (type : string) (options : params)
| GetPopularModels (period : option string) (limit : option number)
| GetLatestModels (limit : option number)
| GetTopRatedModels (period : option string) (limit : option number).

Definition perform (zod_message : list issue -> string)
    (this : CivitaiClient) (fetch : network) (op : operation)
    : completion value :=
  match op with
  | GetModels ps => getModels zod_message this fetch ps
  | GetModel id => getModel zod_message this fetch id
  | GetModelVersion id => getModelVersion zod_message this fetch id
  | GetModelVersionByHash hash =>
      getModelVersionByHash zod_message this fetch hash
  | GetImages ps => getImages zod_message this fetch ps
  | GetCreators ps => getCreators zod_message this fetch ps
  | GetTags ps => getTags zod_message this fetch ps
  | SearchModels query options =>
      searchModels zod_message this fetch query options
  | SearchModelsByTag tag options =>
      searchModelsByTag zod_message this fetch tag options
  | SearchModelsByCreator username options =>
      searchModelsByCreator zod_message this fetch username options
  | GetModelsByType type options =>
      getModelsByType zod_message this fetch type options
  | GetPopularModels period limit =>
      getPopularModels zod_message this fetch period limit
  | GetLatestModels limit => getLatestModels zod_message this fetch limit
  | GetTopRatedModels period limit =>
      getTopRatedModels zod_message this fetch period limit
  end.

(** The endpoint, the parameter object and the schema an operation hands
    to [buildUrl] and [makeRequest]. *)
Definition endpoint (op : operation) : string :=
  match op with
  | GetModel id => "/models/" +:+ number_toString id
  | GetModelVersion id => "/model-versions/" +:+ number_toString id
  | GetModelVersionByHash hash => "/model-versions/by-hash/" +:+ hash
  | GetImages _ => "/images"
  | GetCreators _ => "/creators"
  | GetTags _ => "/tags"
  | _ => "/models"
  end.

Definition bag (op : operation) : params :=
  match op with
  | GetModels ps | GetImages ps | GetCreators ps | GetTags ps => ps
  | GetModel _ | GetModelVersion _ | GetModelVersionByHash _ => []
  | SearchModels query options => searchModels_params query options
  | SearchModelsByTag tag options => searchModelsByTag_params tag options
  | SearchModelsByCreator username options =>
      searchModelsByCreator_params username options
  | GetModelsByType type options => getModelsByType_params type options
  | GetPopularModels period limit => getPopularModels_params period limit
  | GetLatestModels limit => getLatestModels_params limit
  | GetTopRatedModels period limit => getTopRatedModels_params period limit
  end.

Definition schema_of (op : operation) : schema :=
  match op with
  | GetModel _ => ModelSchema
  | GetModelVersion _ | GetModelVersionByHash _ => ModelVersionResponseSchema
  | GetImages _ => ImagesResponseSchema
  | GetCreators _ => CreatorsResponseSchema
  | GetTags _ => TagsResponseSchema
  | _ => ModelsResponseSchema
  end.

(** The URL and the request of an operation. *)
Definition url_of (this : CivitaiClient) (op : operation) : URL :=
  buildUrl_url this (endpoint op) (bag op).

Definition outbound (this : CivitaiClient) (op : operation) : Request :=
  request_of this (buildUrl this (endpoint op) (bag op)).

(** The values of a query key in a URL, in order. *)
Definition query_values (key : string) (url : URL) : list string :=
  sp_getAll key (url_searchParams url).

(** ** Vocabulary of the properties *)

(** [new URL(href).searchParams.getAll(key)] and [.has(key)]: the values of
    a query key in the text of a URL. *)
Definition search_values (key href : string) : list string :=
  query_values key (new_URL href).

Definition search_has (key href : string) : bool :=
  sp_has key (url_searchParams (new_URL href)).

(** The effect of one entry with the key on the values the key has. *)
Definition contribution (value : param) (old : list string) : list string :=
  if is_sent value then
    match value with
    | PArray xs => old ++ map scalar_toString xs
    | PScalar x => [scalar_toString x]
    | _ => old
    end
  else old.

(** The values of a key after the whole bag: the entries with that key
    applied in order. *)
Definition contributions (key : string) (ps : params) (old : list string)
    : list string :=
  fold_left (fun vs entry =>
               if fst entry =? key then contribution (snd entry) vs else vs)
            ps old.

(** The values of the key [token] once the configured token is set. *)
Definition token_values (this : CivitaiClient) (initial : list string)
    : list string :=
  match configured_token this with
  | Some key => [key]
  | None => initial
  end.

(** [c] does not occur in [s]. *)
Fixpoint lacks (c : ascii) (s : string) : bool :=
  match s with
  | EmptyString => true
  | String a rest => negb (Ascii.eqb a c) && lacks c rest
  end.

(** An endpoint with neither [?] nor [#] is all path. *)
Definition plain (ep : string) : bool := lacks "#" ep && lacks "?" ep.

(** The endpoints of the list operations. *)
Definition list_endpoints : list string :=
  ["/models"; "/images"; "/creators"; "/tags"].

(** The text the serializer writes for one byte and for one pair. *)
Definition urlencode_byte (a : ascii) : string :=
  if Ascii.eqb a " " then "+"
  else if urlencoded_plain a then String a ""
  else percent_encode_byte a.

Definition urlencoded_pair (p : string * string) : string :=
  urlencode (fst p) +:+ "=" +:+ urlencode (snd p).

(** The bytes that delimit the parts of a query and of a URL. *)
Definition delimiter (c : ascii) : bool :=
  Ascii.eqb c "&" || Ascii.eqb c "=" || Ascii.eqb c "#" || Ascii.eqb c "?".

(** A URL object in a state the client can reach: its base has no [?] and
    no [#], its query no [#], and its list is the parsed query. *)
Definition settled (url : URL) : Prop :=
  lacks "#" (url_base url) = true /\ lacks "?" (url_base url) = true /\
  (forall q, url_query url = Some q -> lacks "#" q = true) /\
  url_searchParams url =
    match url_query url with Some q => urlencoded_parse q | None => [] end.

(** The object without the key, and with the key set to a value. *)
Definition delete_prop (key : string) (fields : list (string * value))
    : list (string * value) :=
  filter (fun f => negb (fst f =? key)) fields.

Fixpoint set_prop (key : string) (v : value) (fields : list (string * value))
    : list (string * value) :=
  match fields with
  | [] => [(key, v)]
  | (k, old) :: rest =>
      if k =? key then (k, v) :: rest else (k, old) :: set_prop key v rest
  end.

(** The minimal model of the specification: the required fields, no tags,
    a null mode, a creator with its username alone, no versions. *)
Definition minimal_model (id : number) (name description type : string)
    (nsfw : bool) (username : string) : value :=
  VObj [("id", VNum id); ("name", VStr name);
        ("description", VStr description); ("type", VStr type);
        ("nsfw", VBool nsfw); ("tags", VArr []); ("mode", VNull);
        ("creator", VObj [("username", VStr username)]);
        ("modelVersions", VArr [])].

(** ** Vocabulary of the further properties *)

(** Characters [new URL] keeps as written in a path: letters, digits,
    [/], [-] and [_].  A path made of them has no dot segment to resolve
    and no character to percent-encode. *)
Definition path_char (a : ascii) : bool :=
  is_alnum a || Ascii.eqb a "/" || Ascii.eqb a "-" || Ascii.eqb a "_".

Fixpoint path_kept (ep : string) : bool :=
  match ep with
  | EmptyString => true
  | String a rest => path_char a && path_kept rest
  end.


(** The pairs one entry of a bag stands for in the query: none when it is
    not sent, one for a scalar, one per element for an array. *)
Definition entry_pairs (entry : string * param) : searchParams :=
  let '(key, value) := entry in
  if is_sent value then
    match value with
    | PArray xs => map (fun x => (key, scalar_toString x)) xs
    | PScalar x => [(key, scalar_toString x)]
    | _ => []
    end
  else [].

(** The pair of the configured token. *)
Definition token_pair (this : CivitaiClient) : searchParams :=
  match configured_token this with
  | Some key => [("token", key)]
  | None => []
  end.

(** The text of a query after the path: nothing for no pair. *)
Definition query_text (l : searchParams) : string :=
  match l with
  | [] => ""
  | _ => "?" +:+ urlencoded_serialize l
  end.

(** A URL object without a fragment, with the given base, whose query is
    the text of its list. *)
Definition tidy (base : string) (url : URL) : Prop :=
  url_base url = base /\ url_fragment url = None /\
  url_query url =
    match url_searchParams url with
    | [] => None
    | l => Some (urlencoded_serialize l)
    end.

(** A schema that accepts its own outputs and returns them as they are,
    and a schema whose output is its input. *)
Definition idempotent (s : schema) : Prop :=
  forall input out, s input = Valid out -> s out = Valid out.

Definition returns_input (s : schema) : Prop :=
  forall input out, s input = Valid out -> out = input.

(** The schemas [types.ts] exports for the entities and the responses. *)
Definition exported_schemas : list schema :=
  [MetadataSchema; StatsSchema; CreatorSchema; FileMetadataSchema;
   ModelFileSchema; ImageSchema; ModelVersionSchema; ModelSchema; TagSchema;
   ModelsResponseSchema; ImagesResponseSchema; CreatorsResponseSchema;
   TagsResponseSchema; ModelVersionResponseSchema].

(** The list responses with the schema of their items. *)
Definition list_responses : list (schema * schema) :=
  [(ModelsResponseSchema, ModelSchema); (ImagesResponseSchema, ImageSchema);
   (CreatorsResponseSchema, CreatorSchema); (TagsResponseSchema, TagSchema)].

(** ** The formatters of [index.ts]

    [formatModelsResponse] and [formatSingleModel] reshape a response of
    the client for display.  They read properties and call the methods of
    strings and arrays, and a JavaScript read of a property of [undefined]
    or [null], or a call of a method the value does not have, throws a
    TypeError: the formatters return [None] then.  [substring] and
    [length] count the characters of a string, which are the code units
    JavaScript counts when the text is ASCII ([ascii_text]); what is
    proved of a shortened text is proved of such text. *)

(** Whether a value counts as true in a condition. *)
Definition truthy (v : value) : bool :=
  match v with
  | VUndefined | VNull => false
  | VBool b => b
  | VNum n => negb (n =? 0)%Z
  | VStr s => negb (s =? "")
  | VArr _ | VObj _ => true
  end.

(** [a || b] *)
Definition or_else (a b : value) : value := if truthy a then a else b.

(** [v.key], for the data keys the formatters read and [length]. *)
Definition member (v : value) (key : string) : option value :=
  match v with
  | VUndefined | VNull => None
  | VObj fields => Some (prop key fields)
  | VArr items =>
      Some (if key =? "length" then VNum (Z.of_nat (List.length items))
            else VUndefined)
  | VStr s =>
      Some (if key =? "length" then VNum (Z.of_nat (String.length s))
            else VUndefined)
  | VBool _ | VNum _ => Some VUndefined
  end.

(** [v?.key] *)
Definition optional_member (v : value) (key : string) : value :=
  match member v key with
  | Some x => x
  | None => VUndefined
  end.

(** [v[0]] *)
Definition first_element (v : value) : option value :=
  match v with
  | VUndefined | VNull => None
  | VArr items => Some (hd VUndefined items)
  | VStr (String a _) => Some (VStr (String a ""))
  | VObj fields => Some (prop "0" fields)
  | _ => Some VUndefined
  end.

(** [v.slice(0, n)], a method of arrays and of strings. *)
Definition slice_to (n : nat) (v : value) : option value :=
  match v with
  | VArr items => Some (VArr (firstn n items))
  | VStr s => Some (VStr (substring 0 n s))
  | _ => None
  end.

(** [v.map(f)], a method of arrays; [f] may throw. *)
Fixpoint traverse (f : value -> option value) (items : list value)
    : option (list value) :=
  match items with
  | [] => Some []
  | item :: rest =>
      match f item, traverse f rest with
      | Some out, Some outs => Some (out :: outs)
      | _, _ => None
      end
  end.

Definition array_map (f : value -> option value) (v : value)
    : option value :=
  match v with
  | VArr items => option_map VArr (traverse f items)
  | _ => None
  end.

(** [s.substring(0, 200) + (s.length > 200 ? '...' : '')] *)
Definition shorten (s : string) : string :=
  substring 0 200 s +:+ (if (200 <? String.length s)%nat then "..." else "").

Notation "x <-? c ;; k" :=
  (match c with Some x => k | None => None end)
  (at level 61, c at next level, right associativity).

(** The callback of [response.items.map] in [formatModelsResponse]. *)
Definition formatModel (model : value) : option value :=
  versions <-? member model "modelVersions" ;;
  latestVersion <-? first_element versions ;;
  id <-? member model "id" ;;
  name <-? member model "name" ;;
  type <-? member model "type" ;;
  creator <-? member model "creator" ;;
  username <-? member creator "username" ;;
  description <-? member model "description" ;;
  short <-? match description with
            | VStr s => Some (VStr (shorten s))
            | _ => None
            end ;;
  tags <-? member model "tags" ;;
  shown <-? slice_to 5 tags ;;
  nsfw <-? member model "nsfw" ;;
  stats <-? member model "stats" ;;
  latest <-? (if truthy latestVersion then
                vid <-? member latestVersion "id" ;;
                vname <-? member latestVersion "name" ;;
                createdAt <-? member latestVersion "createdAt" ;;
                trainedWords <-? member latestVersion "trainedWords" ;;
                Some (VObj [("id", vid); ("name", vname);
                            ("createdAt", createdAt);
                            ("trainedWords", trainedWords)])
              else Some VNull) ;;
  Some (VObj [("id", id); ("name", name); ("type", type);
              ("creator", username); ("description", short);
              ("tags", shown); ("nsfw", nsfw);
              ("stats",
               VObj [("downloads",
                      or_else (optional_member stats "downloadCount")
                              (VNum 0%Z));
                     ("rating",
                      or_else (optional_member stats "rating") (VNum 0%Z));
                     ("favorites",
                      or_else (optional_member stats "favoriteCount")
                              (VNum 0%Z))]);
              ("latestVersion", latest)]).

Definition formatModelsResponse (response : value) : option value :=
  items <-? member response "items" ;;
  models <-? array_map formatModel items ;;
  count <-? member models "length" ;;
  metadata <-? member response "metadata" ;;
  currentPage <-? member metadata "currentPage" ;;
  totalPages <-? member metadata "totalPages" ;;
  totalItems <-? member metadata "totalItems" ;;
  nextPage <-? member metadata "nextPage" ;;
  Some (VObj [("models", models);
              ("pagination",
               VObj [("currentPage", or_else currentPage (VNum 1%Z));
                     ("totalPages", or_else totalPages (VNum 1%Z));
                     ("totalItems", or_else totalItems count);
                     ("hasNextPage", VBool (truthy nextPage))])]).

(** The callbacks of [version.files.map] and [model.modelVersions.map] in
    [formatSingleModel]. *)
Definition formatFile (file : value) : option value :=
  sizeKb <-? member file "sizeKb" ;;
  metadata <-? member file "metadata" ;;
  primary <-? member file "primary" ;;
  pickle <-? member file "pickleScanResult" ;;
  virus <-? member file "virusScanResult" ;;
  Some (VObj [("sizeKb", sizeKb);
              ("format", optional_member metadata "format");
              ("fp", optional_member metadata "fp");
              ("primary", primary);
              ("scanStatus", VObj [("pickle", pickle); ("virus", virus)])]).

Definition formatVersion (version : value) : option value :=
  id <-? member version "id" ;;
  name <-? member version "name" ;;
  description <-? member version "description" ;;
  createdAt <-? member version "createdAt" ;;
  trainedWords <-? member version "trainedWords" ;;
  downloadUrl <-? member version "downloadUrl" ;;
  stats <-? member version "stats" ;;
  files <-? member version "files" ;;
  shown <-? array_map formatFile files ;;
  images <-? member version "images" ;;
  imageCount <-? member images "length" ;;
  Some (VObj [("id", id); ("name", name); ("description", description);
              ("createdAt", createdAt); ("trainedWords", trainedWords);
              ("downloadUrl", downloadUrl); ("stats", stats);
              ("files", shown); ("imageCount", imageCount)]).

Definition formatSingleModel (model : value) : option value :=
  id <-? member model "id" ;;
  name <-? member model "name" ;;
  description <-? member model "description" ;;
  type <-? member model "type" ;;
  creator <-? member model "creator" ;;
  username <-? member creator "username" ;;
  avatar <-? member creator "image" ;;
  tags <-? member model "tags" ;;
  nsfw <-? member model "nsfw" ;;
  stats <-? member model "stats" ;;
  modelVersions <-? member model "modelVersions" ;;
  versions <-? array_map formatVersion modelVersions ;;
  Some (VObj [("id", id); ("name", name); ("description", description);
              ("type", type);
              ("creator", VObj [("username", username); ("avatar", avatar)]);
              ("tags", tags); ("nsfw", nsfw); ("stats", stats);
              ("versions", versions)]).

(** The text of the tool [get_download_url] of [index.ts], for a numeric
    version id. *)
Definition double_quote : string := String "034"%char "".

Definition getDownloadUrl_text (this : CivitaiClient)
    (modelVersionId : number) : string :=
  let downloadUrl := getDownloadUrl this modelVersionId in
  ("Download URL for model version " +:+ number_toString modelVersionId
   +:+ ":\n\n" +:+ downloadUrl +:+ "\n\n")
  +:+ ("**Note:** Use `wget " +:+ double_quote +:+ downloadUrl
       +:+ double_quote
       +:+ " --content-disposition` to download with proper filename.\n")
  +:+ "If the model requires authentication, add your API key: `?token=YOUR_API_KEY`".

(** The fields the Model schema requires. *)
Definition ModelSchema_required : list string :=
  ["id"; "name"; "description"; "type"; "nsfw"; "tags"; "creator";
   "modelVersions"].

(** * Properties *)

(** Splits a membership in a literal shape into its fields. *)
Ltac shape_cases H :=
  cbn [In] in H;
  repeat (destruct H as [H|H]; [injection H as <- <-|]);
  [..|destruct H].

(** ** Strings *)

Lemma append_assoc (s t u : string) : (s +:+ t) +:+ u = s +:+ t +:+ u.
Proof.
  induction s as [|a s IH]; simpl; auto. now rewrite IH.
Qed.

Lemma append_nil_r (s : string) : s +:+ "" = s.
Proof.
  induction s as [|a s IH]; simpl; auto. now rewrite IH.
Qed.

Lemma lacks_app c s t : lacks c (s +:+ t) = lacks c s && lacks c t.
Proof.
  induction s as [|a s IH]; simpl; auto.
  now rewrite IH, andb_assoc.
Qed.

Lemma cut_lacks c s : lacks c s = true -> cut c s = (s, None).
Proof.
  induction s as [|a s IH]; simpl; auto.
  destruct (Ascii.eqb a c); simpl; [discriminate|].
  intros H. now rewrite (IH H).
Qed.

Lemma cut_at c s t :
  lacks c s = true -> cut c (s +:+ String c t) = (s, Some t).
Proof.
  induction s as [|a s IH]; simpl.
  - now rewrite Ascii.eqb_refl.
  - destruct (Ascii.eqb a c); simpl; [discriminate|].
    intros H. now rewrite (IH H).
Qed.

Lemma cut_before c s : lacks c (fst (cut c s)) = true.
Proof.
  induction s as [|a s IH]; simpl; auto.
  destruct (Ascii.eqb a c) eqn:Ha; simpl; auto.
  destruct (cut c s) as [before after]. simpl in *. now rewrite Ha, IH.
Qed.

Lemma cut_keeps_lacks d c s :
  lacks d s = true ->
  lacks d (fst (cut c s)) = true /\
  (forall t, snd (cut c s) = Some t -> lacks d t = true).
Proof.
  induction s as [|a s IH]; simpl.
  - split; auto. discriminate.
  - intros H. apply andb_true_iff in H as [Ha Hs].
    destruct (Ascii.eqb a c); simpl.
    + split; auto. now intros t [= <-].
    + destruct (cut c s) as [before after]. simpl in *.
      destruct (IH Hs) as [Hb Hafter]. rewrite Ha, Hb. auto.
Qed.

Lemma split_on_lacks c s : lacks c s = true -> split_on c s = [s].
Proof.
  induction s as [|a s IH]; simpl; auto.
  destruct (Ascii.eqb a c); simpl; [discriminate|].
  intros H. now rewrite (IH H).
Qed.

Lemma split_on_at c s t :
  lacks c s = true -> split_on c (s +:+ String c t) = s :: split_on c t.
Proof.
  induction s as [|a s IH]; simpl.
  - now rewrite Ascii.eqb_refl.
  - destruct (Ascii.eqb a c); simpl; [discriminate|].
    intros H. now rewrite (IH H).
Qed.

Lemma split_on_join c piece pieces :
  Forall (fun p => lacks c p = true) (piece :: pieces) ->
  split_on c (join (String c "") (piece :: pieces)) = piece :: pieces.
Proof.
  revert piece. induction pieces as [|q pieces IH]; intros piece Hall.
  - apply split_on_lacks. now inversion Hall.
  - inversion Hall as [|? ? Hp Hrest]; subst.
    change (join (String c "") (piece :: q :: pieces))
      with (piece +:+ String c (join (String c "") (q :: pieces))).
    now rewrite split_on_at, IH.
Qed.

Lemma string_map_app f s t :
  string_map f (s +:+ t) = string_map f s +:+ string_map f t.
Proof.
  induction s as [|a s IH]; simpl; auto. now rewrite IH.
Qed.

Lemma lacks_uint c d :
  is_alnum c = false -> lacks c (NilEmpty.string_of_uint d) = true.
Proof.
  intros Hc.
  induction d; cbn [NilEmpty.string_of_uint lacks]; auto;
    rewrite IHd, andb_true_r;
    match goal with
    | |- context [Ascii.eqb ?a c] =>
        destruct (Ascii.eqb_spec a c) as [<-|]; auto; discriminate
    end.
Qed.

(** The decimal text of a number has digits and a sign, nothing else. *)
Lemma lacks_number_toString c n :
  is_alnum c = false -> c <> "-"%char -> lacks c (number_toString n) = true.
Proof.
  intros Hc Hminus. unfold number_toString.
  assert (Hu : forall d, lacks c (NilZero.string_of_uint d) = true).
  { intros d. destruct d; try apply lacks_uint; auto.
    cbn [NilZero.string_of_uint lacks].
    destruct (Ascii.eqb_spec "0" c) as [<-|]; auto; discriminate. }
  destruct (Z.to_int n) as [d|d]; cbn [NilZero.string_of_int lacks]; auto.
  rewrite Hu, andb_true_r.
  destruct (Ascii.eqb_spec "-" c) as [<-|]; simpl; auto; congruence.
Qed.

(** ** The urlencoded format: parsing what was serialized *)

Lemma urlencode_cons a s :
  urlencode (String a s) = urlencode_byte a +:+ urlencode s.
Proof. reflexivity. Qed.

Lemma percent_decode_byte a t :
  percent_decode (string_map plus_to_space (urlencode_byte a) +:+ t) =
  String a (percent_decode t).
Proof.
  destruct a as [[|] [|] [|] [|] [|] [|] [|] [|]]; reflexivity.
Qed.

Lemma urldecode_urlencode s : urldecode (urlencode s) = s.
Proof.
  unfold urldecode. induction s as [|a s IH]; auto.
  rewrite urlencode_cons, string_map_app, percent_decode_byte.
  now rewrite IH.
Qed.

Lemma lacks_urlencode_byte c a :
  delimiter c = true -> lacks c (urlencode_byte a) = true.
Proof.
  unfold delimiter. intros H.
  repeat (apply orb_true_iff in H as [H|H]);
    apply Ascii.eqb_eq in H; subst c;
    destruct a as [[|] [|] [|] [|] [|] [|] [|] [|]]; reflexivity.
Qed.

Lemma lacks_urlencode c s : delimiter c = true -> lacks c (urlencode s) = true.
Proof.
  intros H. induction s as [|a s IH]; auto.
  rewrite urlencode_cons, lacks_app, IH, lacks_urlencode_byte; auto.
Qed.

Lemma urlencoded_parse_pair p : urlencoded_parse_piece (urlencoded_pair p) = p.
Proof.
  destruct p as [name value]. unfold urlencoded_parse_piece, urlencoded_pair.
  cbn [fst snd].
  change (urlencode name +:+ "=" +:+ urlencode value)
    with (urlencode name +:+ String "=" (urlencode value)).
  rewrite cut_at by (now apply lacks_urlencode).
  now rewrite !urldecode_urlencode.
Qed.

Lemma lacks_urlencoded_pair c p :
  delimiter c = true -> c <> "="%char -> lacks c (urlencoded_pair p) = true.
Proof.
  intros Hc Heq. unfold urlencoded_pair.
  rewrite !lacks_app, !lacks_urlencode by assumption.
  cbn [lacks]. destruct (Ascii.eqb_spec "=" c); [congruence|reflexivity].
Qed.

Lemma urlencoded_pair_nonempty p : (urlencoded_pair p =? "") = false.
Proof.
  unfold urlencoded_pair. destruct (urlencode (fst p)); reflexivity.
Qed.

Lemma urlencoded_serialize_cons p q l :
  urlencoded_serialize (p :: q :: l) =
  urlencoded_pair p +:+ String "&" (urlencoded_serialize (q :: l)).
Proof. reflexivity. Qed.

Lemma urlencoded_serialize_empty l :
  (urlencoded_serialize l =? "") = match l with [] => true | _ => false end.
Proof.
  destruct l as [|p [|q l]]; auto.
  - apply urlencoded_pair_nonempty.
  - rewrite urlencoded_serialize_cons.
    pose proof (urlencoded_pair_nonempty p) as H.
    destruct (urlencoded_pair p); [discriminate|reflexivity].
Qed.

Lemma lacks_urlencoded_serialize c l :
  delimiter c = true -> c <> "="%char -> c <> "&"%char ->
  lacks c (urlencoded_serialize l) = true.
Proof.
  intros Hc Heq Hamp.
  induction l as [|p l IH]; auto.
  destruct l as [|q l]; [now apply lacks_urlencoded_pair|].
  rewrite urlencoded_serialize_cons, lacks_app, lacks_urlencoded_pair
    by assumption.
  cbn [lacks andb]. rewrite IH.
  destruct (Ascii.eqb_spec "&" c); [congruence|reflexivity].
Qed.

(** Parsing a serialized list gives the list back. *)
Lemma urlencoded_parse_serialize l :
  urlencoded_parse (urlencoded_serialize l) = l.
Proof.
  unfold urlencoded_parse, urlencoded_serialize.
  destruct l as [|p l]; [reflexivity|].
  change (map (fun p => urlencode (fst p) +:+ "=" +:+ urlencode (snd p))
              (p :: l))
    with (urlencoded_pair p :: map urlencoded_pair l).
  rewrite (split_on_join "&").
  - change (urlencoded_pair p :: map urlencoded_pair l)
      with (map urlencoded_pair (p :: l)).
    generalize (p :: l). clear. intros l.
    induction l as [|p l IH]; auto.
    cbn [map filter]. rewrite urlencoded_pair_nonempty. cbn [negb map].
    now rewrite urlencoded_parse_pair, IH.
  - change (urlencoded_pair p :: map urlencoded_pair l)
      with (map urlencoded_pair (p :: l)).
    apply Forall_forall. intros piece Hin.
    apply in_map_iff in Hin as [q [<- _]].
    apply lacks_urlencoded_pair; [reflexivity|discriminate].
Qed.

(** ** Search parameter lists *)

Lemma sp_getAll_app key l1 l2 :
  sp_getAll key (l1 ++ l2) = sp_getAll key l1 ++ sp_getAll key l2.
Proof.
  unfold sp_getAll. now rewrite filter_app, map_app.
Qed.

Lemma sp_getAll_cons key n v l :
  sp_getAll key ((n, v) :: l) =
  if n =? key then v :: sp_getAll key l else sp_getAll key l.
Proof.
  unfold sp_getAll. simpl. now destruct (n =? key).
Qed.

Lemma sp_getAll_append key name value l :
  sp_getAll key (sp_append name value l) =
  if name =? key then sp_getAll key l ++ [value] else sp_getAll key l.
Proof.
  unfold sp_append. rewrite sp_getAll_app, sp_getAll_cons.
  destruct (name =? key); simpl; auto using app_nil_r.
Qed.

Lemma sp_getAll_delete key name l :
  sp_getAll key (sp_delete name l) =
  if name =? key then [] else sp_getAll key l.
Proof.
  induction l as [|[n v] l IH].
  - now destruct (name =? key).
  - unfold sp_delete in *. cbn [filter fst].
    destruct (String.eqb_spec n name) as [->|Hn]; cbn [negb].
    + rewrite IH, sp_getAll_cons. now destruct (name =? key).
    + rewrite !sp_getAll_cons, IH.
      destruct (String.eqb_spec name key) as [->|Hk]; auto.
      apply String.eqb_neq in Hn. now rewrite Hn.
Qed.

Lemma sp_getAll_set key name value l :
  sp_getAll key (sp_set name value l) =
  if name =? key then [value] else sp_getAll key l.
Proof.
  induction l as [|[n v] l IH]; simpl.
  - unfold sp_getAll. simpl. now destruct (name =? key).
  - destruct (String.eqb_spec n name) as [->|Hn].
    + rewrite !sp_getAll_cons, sp_getAll_delete.
      now destruct (name =? key).
    + rewrite !sp_getAll_cons, IH.
      destruct (String.eqb_spec name key) as [->|Hk]; auto.
      apply String.eqb_neq in Hn. now rewrite Hn.
Qed.

Lemma sp_has_getAll key l : sp_has key l = false <-> sp_getAll key l = [].
Proof.
  unfold sp_has, sp_getAll.
  induction l as [|[n v] l IH]; simpl; [tauto|].
  destruct (n =? key); simpl; [|exact IH].
  split; discriminate.
Qed.

(** ** URL objects: the text parses back to the object *)

Lemma settled_new_URL input : settled (new_URL input).
Proof.
  unfold new_URL, settled.
  pose proof (cut_before "#" input) as Hrest.
  destruct (cut "#" input) as [rest fragment]. cbn [fst] in Hrest.
  pose proof (cut_before "?" rest) as Hbase.
  destruct (cut_keeps_lacks "#" "?" rest Hrest) as [Hb Hq].
  destruct (cut "?" rest) as [base query]. cbn [fst snd] in *.
  cbn [url_base url_query url_searchParams]. auto.
Qed.

Lemma settled_update url l : settled url -> settled (URL_update url l).
Proof.
  intros (Hhash & Hquery & _ & _). unfold settled, URL_update.
  cbn [url_base url_query url_searchParams].
  rewrite urlencoded_serialize_empty.
  split; [auto|]. split; [auto|]. split.
  - destruct l; [discriminate|]. intros q [= <-].
    apply lacks_urlencoded_serialize; [reflexivity|discriminate|discriminate].
  - destruct l; [reflexivity|]. now rewrite urlencoded_parse_serialize.
Qed.

Lemma new_URL_toString url : settled url -> new_URL (URL_toString url) = url.
Proof.
  destruct url as [base query fragment l].
  intros (Hhash & Hquery & Hq & Hl).
  cbn [url_base url_query url_searchParams] in *.
  unfold URL_toString, new_URL. cbn [url_base url_query url_fragment].
  set (tail := match query with Some q => "?" +:+ q | None => "" end).
  assert (Hrest : lacks "#" (base +:+ tail) = true).
  { unfold tail. rewrite lacks_app, Hhash. destruct query as [q|]; auto.
    cbn. now apply Hq. }
  assert (Hcut : cut "?" (base +:+ tail) = (base, query)).
  { unfold tail. destruct query as [q|].
    - change ("?" +:+ q) with (String "?" q). now apply cut_at.
    - rewrite append_nil_r. now apply cut_lacks. }
  destruct fragment as [f|].
  - rewrite <- append_assoc. change ("#" +:+ f) with (String "#" f).
    rewrite (cut_at "#") by assumption. rewrite Hcut. now subst l.
  - rewrite append_nil_r. rewrite (cut_lacks "#") by assumption.
    rewrite Hcut. now subst l.
Qed.

Lemma settled_add_param url entry :
  settled url -> settled (add_param url entry).
Proof.
  destruct entry as [key value]. unfold add_param. intros H.
  destruct (is_sent value); auto.
  destruct value as [| |x|xs]; auto.
  - now apply settled_update.
  - revert url H.
    induction xs as [|x xs IH]; intros url H; cbn [fold_left]; auto.
    apply IH. now apply settled_update.
Qed.

Lemma settled_buildUrl_url this ep ps : settled (buildUrl_url this ep ps).
Proof.
  unfold buildUrl_url.
  set (url := match configured_token this with
              | Some key => _
              | None => _
              end).
  assert (H : settled url).
  { unfold url. destruct (configured_token this).
    - apply settled_update, settled_new_URL.
    - apply settled_new_URL. }
  clearbody url. revert url H.
  induction ps as [|entry ps IH]; intros url H; cbn [fold_left]; auto.
  apply IH. now apply settled_add_param.
Qed.

(** The text [buildUrl] returns parses to the URL object it has built. *)
Lemma buildUrl_parses_back this ep ps :
  new_URL (buildUrl this ep ps) = buildUrl_url this ep ps.
Proof.
  apply new_URL_toString, settled_buildUrl_url.
Qed.

Lemma search_values_buildUrl key this ep ps :
  search_values key (buildUrl this ep ps) =
  query_values key (buildUrl_url this ep ps).
Proof.
  unfold search_values. now rewrite buildUrl_parses_back.
Qed.

Lemma search_has_values key href :
  search_has key href = false <-> search_values key href = [].
Proof. apply sp_has_getAll. Qed.

(** ** What [buildUrl] does to the values of a key *)

Lemma query_values_update key url l :
  query_values key (URL_update url l) = sp_getAll key l.
Proof. reflexivity. Qed.

Lemma query_values_append_all key name xs : forall url,
  query_values key
    (fold_left (fun u v => URL_searchParams_append name (scalar_toString v) u)
               xs url) =
  if name =? key then query_values key url ++ map scalar_toString xs
  else query_values key url.
Proof.
  induction xs as [|x xs IH]; intros url; simpl.
  - destruct (name =? key); auto using app_nil_r.
  - rewrite IH. unfold URL_searchParams_append.
    rewrite query_values_update, sp_getAll_append.
    destruct (name =? key); auto.
    now rewrite <- app_assoc.
Qed.

Lemma query_values_add_param key url name value :
  query_values key (add_param url (name, value)) =
  if name =? key then contribution value (query_values key url)
  else query_values key url.
Proof.
  unfold add_param, contribution.
  destruct (is_sent value) eqn:Hsent.
  - destruct value as [| |x|xs]; try discriminate.
    + unfold URL_searchParams_set.
      now rewrite query_values_update, sp_getAll_set.
    + apply query_values_append_all.
  - now destruct (name =? key).
Qed.

Lemma query_values_fold key ps : forall url,
  query_values key (fold_left add_param ps url) =
  contributions key ps (query_values key url).
Proof.
  unfold contributions.
  induction ps as [|[name value] ps IH]; intros url; cbn [fold_left]; auto.
  now rewrite IH, query_values_add_param.
Qed.

Lemma contributions_absent key ps old :
  ~ In key (keys ps) -> contributions key ps old = old.
Proof.
  unfold contributions. revert old.
  induction ps as [|[name value] ps IH]; intros old Hnot; simpl in *; auto.
  destruct (String.eqb_spec name key) as [->|Hn]; [tauto|].
  apply IH. tauto.
Qed.

(** In a bag with each key once, the entry of a key alone decides. *)
Lemma contributions_unique key value ps old :
  NoDup (keys ps) -> In (key, value) ps ->
  contributions key ps old = contribution value old.
Proof.
  unfold contributions. revert old.
  induction ps as [|[name v] ps IH]; intros old Hnd Hin; simpl in *; [tauto|].
  inversion Hnd as [|? ? Hfresh Hnd']; subst.
  destruct Hin as [Heq|Hin].
  - inversion Heq; subst. rewrite String.eqb_refl.
    now apply (contributions_absent key ps).
  - destruct (String.eqb_spec name key) as [->|Hn].
    + exfalso. apply Hfresh. change key with (fst (key, value)).
      now apply in_map.
    + now apply IH.
Qed.

Lemma contributions_unsent key ps old :
  (forall value, In (key, value) ps -> is_sent value = false) ->
  contributions key ps old = old.
Proof.
  unfold contributions. revert old.
  induction ps as [|[name v] ps IH]; intros old Hall; simpl in *; auto.
  rewrite IH by (intros value Hin; apply Hall; auto).
  destruct (String.eqb_spec name key) as [->|Hn]; auto.
  unfold contribution. now rewrite (Hall v) by auto.
Qed.

Lemma query_values_buildUrl key this ep ps :
  query_values key (buildUrl_url this ep ps) =
  contributions key ps
    (if "token" =? key
     then token_values this (query_values key (new_URL (baseUrl +:+ ep)))
     else query_values key (new_URL (baseUrl +:+ ep))).
Proof.
  unfold buildUrl_url, token_values. rewrite query_values_fold. f_equal.
  destruct (configured_token this) as [t|].
  - unfold URL_searchParams_set.
    now rewrite query_values_update, sp_getAll_set.
  - now destruct ("token" =? key).
Qed.

(** A sent scalar of a bag with each key once is the one value of its key
    in the URL. *)
Lemma search_values_scalar key x this ep ps :
  NoDup (keys ps) -> In (key, PScalar x) ps -> x <> SStr "" ->
  search_values key (buildUrl this ep ps) = [scalar_toString x].
Proof.
  intros Hnd Hin Hx.
  rewrite search_values_buildUrl, query_values_buildUrl.
  rewrite (contributions_unique key (PScalar x) ps _ Hnd Hin).
  unfold contribution. destruct x as [b|n|[|a s]]; try reflexivity.
  congruence.
Qed.

(** ** Endpoints without a query of their own *)

Lemma new_URL_plain ep :
  plain ep = true ->
  new_URL (baseUrl +:+ ep) = mkURL (baseUrl +:+ ep) None None [].
Proof.
  unfold plain. intros H. apply andb_true_iff in H as [Hhash Hquery].
  unfold new_URL.
  rewrite (cut_lacks "#"), (cut_lacks "?"); auto;
    rewrite lacks_app; apply andb_true_iff; split; auto.
Qed.

Lemma plain_number prefix n :
  plain prefix = true -> plain (prefix +:+ number_toString n) = true.
Proof.
  unfold plain. rewrite !lacks_app. intros H.
  apply andb_true_iff in H as [-> ->]. simpl.
  rewrite !lacks_number_toString; auto; discriminate.
Qed.

(** Every endpoint but the one of the lookup by hash is plain, and that
    one is plain when the hash is. *)
Lemma plain_endpoint op :
  (forall hash, op = GetModelVersionByHash hash -> plain hash = true) ->
  plain (endpoint op) = true.
Proof.
  intros Hhash.
  destruct op; cbn [endpoint]; try reflexivity;
    try (apply plain_number; reflexivity).
  unfold plain in *. rewrite !lacks_app.
  specialize (Hhash hash eq_refl).
  apply andb_true_iff in Hhash as [-> ->]. reflexivity.
Qed.

Lemma query_values_plain key ep :
  plain ep = true -> query_values key (new_URL (baseUrl +:+ ep)) = [].
Proof.
  intros H. now rewrite new_URL_plain.
Qed.

Lemma list_endpoint_plain ep : In ep list_endpoints -> plain ep = true.
Proof.
  intros [<-|[<-|[<-|[<-|[]]]]]; reflexivity.
Qed.

(** The values of a key in the URL of a plain endpoint. *)
Lemma search_values_plain key this ep ps :
  plain ep = true ->
  search_values key (buildUrl this ep ps) =
  contributions key ps (if "token" =? key then token_values this [] else []).
Proof.
  intros Hep. rewrite search_values_buildUrl, query_values_buildUrl.
  now rewrite (query_values_plain key ep Hep).
Qed.

(** ** The query string of a list operation *)

(** C1, as stated, fails: with a token configured, a bag whose [token] key
    is null still has [token] in the query string, where the configured
    token stays. *)
Lemma buildUrl_null_token_key_present :
  let this := mkClient (Some "k") in
  let ps := [("token", PNull); ("limit", num 5%Z)] in
  In "/models" list_endpoints /\
  NoDup (keys ps) /\ In ("token", PNull) ps /\
  buildUrl this "/models" ps =
    "https://civitai.com/api/v1/models?token=k&limit=5" /\
  search_values "token" (buildUrl this "/models" ps) = ["k"] /\
  search_has "token" (buildUrl this "/models" ps) = true.
Proof.
  repeat split; try reflexivity; cbn; auto.
  repeat constructor; simpl; intuition discriminate.
Qed.

(** C1 (amended).  For a list operation and a bag with each key once, in
    the URL that [buildUrl] returns: a key with a sent scalar value (a
    number, a boolean, a non-empty string) has exactly that value,
    stringified, once; a key other than [token], or any key when no token
    is configured, is absent when its value is undefined, null or the empty
    string, and has the stringified elements of its array, in order, when
    its value is an array.  With a token configured the key [token] keeps
    the configured token, and an array adds its elements after it. *)
Theorem buildUrl_query_of_bag this ep ps key value :
  In ep list_endpoints -> NoDup (keys ps) -> In (key, value) ps ->
  let href := buildUrl this ep ps in
  (forall x, value = PScalar x -> x <> SStr "" ->
     search_values key href = [scalar_toString x]) /\
  (key <> "token" \/ configured_token this = None ->
     (value = PUndefined \/ value = PNull \/ value = str "" ->
        search_values key href = [] /\ search_has key href = false) /\
     (forall xs, value = PArray xs ->
        search_values key href = map scalar_toString xs)) /\
  (forall t, key = "token" -> configured_token this = Some t ->
     (value = PUndefined \/ value = PNull \/ value = str "" ->
        search_values key href = [t]) /\
     (forall xs, value = PArray xs ->
        search_values key href = t :: map scalar_toString xs)).
Proof.
  intros Hep Hnd Hin href.
  assert (Hvalues : search_values key href =
                    contribution value
                      (if "token" =? key then token_values this [] else [])).
  { unfold href.
    rewrite (search_values_plain key this ep ps (list_endpoint_plain ep Hep)).
    apply (contributions_unique key value ps _ Hnd Hin). }
  split; [|split].
  - intros x -> Hx. rewrite Hvalues. unfold contribution.
    destruct x as [b|n|[|a s]]; try reflexivity. congruence.
  - intros Hkey.
    assert (Hold : (if "token" =? key then token_values this [] else []) = []).
    { destruct (String.eqb_spec "token" key) as [<-|]; auto.
      destruct Hkey as [Hkey|Hnone]; [congruence|].
      unfold token_values. now rewrite Hnone. }
    rewrite Hold in Hvalues. split.
    + intros Hv.
      assert (Hnone : search_values key href = [])
        by (rewrite Hvalues; destruct Hv as [->|[->| ->]]; reflexivity).
      split; [exact Hnone|]. now apply search_has_values.
    + intros xs ->. now rewrite Hvalues.
  - intros t -> Ht. rewrite Hvalues. unfold token_values. rewrite Ht.
    simpl. split.
    + now intros [->|[->| ->]].
    + now intros xs ->.
Qed.

Lemma buildUrl_query_of_bag_witness :
  let this := mkClient (Some "k") in
  let ps := [("query", str ""); ("types", PArray [SStr "LORA"; SStr "Poses"]);
             ("limit", num 20%Z)] in
  In "/models" list_endpoints /\ NoDup (keys ps) /\
  In ("types", PArray [SStr "LORA"; SStr "Poses"]) ps /\
  search_values "types" (buildUrl this "/models" ps) = ["LORA"; "Poses"].
Proof.
  intros this ps.
  assert (Hep : In "/models" list_endpoints) by (simpl; auto).
  assert (Hnd : NoDup (keys ps))
    by (repeat constructor; simpl; intuition discriminate).
  assert (Hin : In ("types", PArray [SStr "LORA"; SStr "Poses"]) ps)
    by (simpl; auto).
  split; [exact Hep|]. split; [exact Hnd|]. split; [exact Hin|].
  destruct (buildUrl_query_of_bag this "/models" ps "types" _ Hep Hnd Hin)
    as [_ [Harr _]].
  assert (Hkey : "types" <> "token" \/ configured_token this = None)
    by (left; discriminate).
  exact (proj2 (Harr Hkey) _ eq_refl).
Defined.

(** ** A [token] key in the bag *)

(** C10, as stated, fails for an array: it is defined, not null and not
    the empty string, and its elements are appended after the configured
    token, which stays first. *)
Lemma buildUrl_token_array_appended :
  let this := mkClient (Some "k") in
  let ps := [("token", PArray [SStr "a"; SStr "b"])] in
  configured_token this = Some "k" /\ NoDup (keys ps) /\
  In ("token", PArray [SStr "a"; SStr "b"]) ps /\
  is_sent (PArray [SStr "a"; SStr "b"]) = true /\
  buildUrl this "/models" ps =
    "https://civitai.com/api/v1/models?token=k&token=a&token=b" /\
  search_values "token" (buildUrl this "/models" ps) = ["k"; "a"; "b"].
Proof.
  repeat split; try reflexivity; cbn; auto.
  repeat constructor; simpl; intuition discriminate.
Qed.

(** C10 (amended).  With a token configured and a bag whose [token] key
    has a sent scalar value (a number, a boolean or a non-empty string),
    the only [token] parameter of the URL is the bag's value, stringified:
    the [set] of the bag's entry replaces the configured token. *)
Theorem buildUrl_token_overwritten this t ep ps x :
  configured_token this = Some t ->
  NoDup (keys ps) -> In ("token", PScalar x) ps -> x <> SStr "" ->
  search_values "token" (buildUrl this ep ps) = [scalar_toString x] /\
  (t <> scalar_toString x ->
   ~ In t (search_values "token" (buildUrl this ep ps))).
Proof.
  intros _ Hnd Hin Hx.
  assert (Hvalues : search_values "token" (buildUrl this ep ps)
                    = [scalar_toString x])
    by (now apply search_values_scalar).
  split; [exact Hvalues|].
  rewrite Hvalues. intros Hdiff [Heq|[]]. congruence.
Qed.

Lemma buildUrl_token_overwritten_witness :
  let this := mkClient (Some "k") in
  let ps := [("limit", num 5%Z); ("token", str "mine")] in
  configured_token this = Some "k" /\ NoDup (keys ps) /\
  In ("token", str "mine") ps /\ SStr "mine" <> SStr "" /\
  search_values "token" (buildUrl this "/models" ps) = ["mine"] /\
  buildUrl this "/models" ps =
    "https://civitai.com/api/v1/models?token=mine&limit=5".
Proof.
  intros this ps.
  assert (Hnd : NoDup (keys ps))
    by (repeat constructor; simpl; intuition discriminate).
  assert (Hin : In ("token", str "mine") ps) by (simpl; auto).
  assert (Hx : SStr "mine" <> SStr "") by discriminate.
  split; [reflexivity|]. split; [exact Hnd|]. split; [exact Hin|].
  split; [exact Hx|]. split; [|reflexivity].
  exact (proj1 (buildUrl_token_overwritten this "k" "/models" ps
                  (SStr "mine") eq_refl Hnd Hin Hx)).
Defined.

(** ** The token in the URL and in the request *)

Lemma header_Authorization this :
  header "Authorization" (headers_of this) =
  option_map (fun key => "Bearer " +:+ key) (configured_token this).
Proof.
  unfold headers_of. now destruct (configured_token this).
Qed.

(** C3, as stated, fails: a bag with a [token] of its own replaces the
    configured token in the URL, while the header keeps the configured one;
    and without a configured token such a bag still puts a [token] in the
    URL. *)
Lemma token_in_url_differs_from_configured :
  let op := GetModels [("token", str "x")] in
  (let this := mkClient (Some "k") in
   configured_token this = Some "k" /\
   request_url (outbound this op) =
     "https://civitai.com/api/v1/models?token=x" /\
   search_values "token" (request_url (outbound this op)) = ["x"] /\
   header "Authorization" (request_headers (outbound this op)) =
     Some "Bearer k") /\
  (let this := mkClient None in
   configured_token this = None /\
   request_url (outbound this op) =
     "https://civitai.com/api/v1/models?token=x" /\
   search_values "token" (request_url (outbound this op)) = ["x"] /\
   header "Authorization" (request_headers (outbound this op)) = None).
Proof.
  repeat split; reflexivity.
Qed.

(** C3 (amended).  For every operation the request carries the header
    [Authorization: Bearer <token>] exactly when a token is configured.
    When the bag of the operation sends no [token] entry of its own: with
    a token configured the URL of the request has the configured token as
    its one [token] parameter, and with none configured it has no [token]
    parameter (for the lookup by hash, when the hash has no [?] and no
    [#]). *)
Theorem token_in_url_and_header this op :
  let request := outbound this op in
  header "Authorization" (request_headers request) =
    option_map (fun key => "Bearer " +:+ key) (configured_token this) /\
  ((forall value, In ("token", value) (bag op) -> is_sent value = false) ->
   (forall t, configured_token this = Some t ->
      search_values "token" (request_url request) = [t]) /\
   (configured_token this = None ->
    (forall hash, op = GetModelVersionByHash hash -> plain hash = true) ->
    search_values "token" (request_url request) = [] /\
    search_has "token" (request_url request) = false)).
Proof.
  intros request. split; [apply header_Authorization|].
  intros Hbag. unfold request, outbound, request_of. cbn [request_url].
  assert (Hq : search_values "token" (buildUrl this (endpoint op) (bag op))
               = token_values this
                   (query_values "token" (new_URL (baseUrl +:+ endpoint op)))).
  { rewrite search_values_buildUrl, query_values_buildUrl.
    now rewrite (contributions_unsent "token" (bag op) _ Hbag). }
  split.
  - intros t Ht. rewrite Hq. unfold token_values. now rewrite Ht.
  - intros Hnone Hhash.
    assert (Hempty : search_values "token"
                       (buildUrl this (endpoint op) (bag op)) = []).
    { rewrite Hq. unfold token_values. rewrite Hnone.
      apply query_values_plain. now apply plain_endpoint. }
    split; auto. now apply search_has_values.
Qed.

Lemma token_in_url_and_header_witness :
  let op := GetPopularModels None None in
  (forall value, In ("token", value) (bag op) -> is_sent value = false) /\
  configured_token (mkClient (Some "abc")) = Some "abc" /\
  search_values "token" (request_url (outbound (mkClient (Some "abc")) op))
    = ["abc"] /\
  configured_token (mkClient None) = None /\
  (forall hash, op = GetModelVersionByHash hash -> plain hash = true) /\
  search_values "token" (request_url (outbound (mkClient None) op)) = [].
Proof.
  intros op.
  assert (Hbag : forall value,
             In ("token", value) (bag op) -> is_sent value = false).
  { intros value Hin. simpl in Hin.
    repeat (destruct Hin as [Hin|Hin]; [discriminate Hin|]). destruct Hin. }
  assert (Hhash : forall hash,
             op = GetModelVersionByHash hash -> plain hash = true)
    by (intros hash Hop; discriminate Hop).
  split; [exact Hbag|]. split; [reflexivity|]. split.
  { apply (proj2 (token_in_url_and_header (mkClient (Some "abc")) op) Hbag).
    reflexivity. }
  split; [reflexivity|]. split; [exact Hhash|].
  apply (proj2 (token_in_url_and_header (mkClient None) op) Hbag);
    [reflexivity | exact Hhash].
Defined.

(** ** The download URL *)

Lemma getDownloadUrl_closed_form this modelVersionId :
  getDownloadUrl this modelVersionId =
  baseUrl +:+ "/download/models/" +:+ number_toString modelVersionId
  +:+ match configured_token this with
      | Some key => "?token=" +:+ urlencode key
      | None => ""
      end.
Proof.
  unfold getDownloadUrl, buildUrl, buildUrl_url. cbn [fold_left].
  rewrite new_URL_plain by (apply plain_number; reflexivity).
  destruct (configured_token this) as [key|].
  - unfold URL_searchParams_set, URL_update, URL_toString.
    cbn [url_base url_query url_fragment url_searchParams sp_set].
    change (urlencoded_serialize [("token", key)])
      with ("token=" +:+ urlencode key).
    cbn [String.append String.eqb Ascii.eqb Bool.eqb].
    now rewrite ?append_nil_r, ?append_assoc.
  - unfold URL_toString.
    cbn [url_base url_query url_fragment].
    now rewrite ?append_nil_r, ?append_assoc.
Qed.

(** C4.  [getDownloadUrl] is a total function of the client and the id
    alone (it takes no network): the base, the path with the id in decimal
    and, when a token is configured, the token as the query.  For 12345
    without a token the URL has the path segment and no [token]; with the
    token [abc] it has [token=abc] besides. *)
Theorem getDownloadUrl_spec :
  (forall this modelVersionId,
     getDownloadUrl this modelVersionId =
     baseUrl +:+ "/download/models/" +:+ number_toString modelVersionId
     +:+ match configured_token this with
         | Some key => "?token=" +:+ urlencode key
         | None => ""
         end) /\
  (let url := getDownloadUrl (mkClient None) 12345%Z in
   url = "https://civitai.com/api/v1/download/models/12345" /\
   includes "download/models/12345" url = true /\
   includes "token" url = false /\
   search_has "token" url = false) /\
  (let url := getDownloadUrl (mkClient (Some "abc")) 12345%Z in
   url = "https://civitai.com/api/v1/download/models/12345?token=abc" /\
   includes "download/models/12345" url = true /\
   includes "token=abc" url = true /\
   search_values "token" url = ["abc"]).
Proof.
  split; [exact getDownloadUrl_closed_form|].
  split; repeat split; reflexivity.
Qed.

(** ** The convenience methods *)

Lemma obj_get_set key name value o :
  obj_get key (obj_set name value o) =
  if name =? key then Some value else obj_get key o.
Proof.
  induction o as [|[k v] o IH]; simpl.
  - now destruct (name =? key).
  - destruct (String.eqb_spec k name) as [->|Hk]; simpl.
    + now destruct (name =? key).
    + rewrite IH. destruct (String.eqb_spec name key) as [->|Hn]; auto.
      apply String.eqb_neq in Hk. now rewrite Hk.
Qed.

Lemma obj_get_absent key (o : params) :
  ~ In key (keys o) -> obj_get key o = None.
Proof.
  induction o as [|[k v] o IH]; simpl; auto.
  intros Hnot. destruct (String.eqb_spec k key) as [->|Hk]; tauto.
Qed.

(** A key of [{ ...target, ...source }] has the value [source] gives it,
    and else the value [target] gives it. *)
Lemma obj_get_spread key source : forall target,
  NoDup (keys source) ->
  obj_get key (obj_spread target source) =
  match obj_get key source with
  | Some value => Some value
  | None => obj_get key target
  end.
Proof.
  unfold obj_spread.
  induction source as [|[k v] source IH]; intros target Hnd; simpl; auto.
  inversion Hnd as [|? ? Hfresh Hnd']; subst.
  rewrite IH by assumption. rewrite obj_get_set.
  destruct (String.eqb_spec k key) as [->|Hk]; auto.
  now rewrite (obj_get_absent key source Hfresh).
Qed.

Lemma obj_get_In key value (o : params) :
  obj_get key o = Some value -> In (key, value) o.
Proof.
  induction o as [|[k v] o IH]; simpl; [discriminate|].
  destruct (String.eqb_spec k key) as [->|Hk]; auto.
  intros [= ->]. auto.
Qed.

Lemma obj_get_None key (o : params) :
  obj_get key o = None -> ~ In key (keys o).
Proof.
  induction o as [|[k v] o IH]; simpl; auto.
  destruct (String.eqb_spec k key) as [->|Hk]; [discriminate|].
  intros H [Heq|Hin]; [congruence|]. now apply IH.
Qed.

Lemma In_keys_obj_set key name value (o : params) :
  In key (keys (obj_set name value o)) <-> key = name \/ In key (keys o).
Proof.
  induction o as [|[k v] o IH]; simpl.
  - intuition.
  - destruct (String.eqb_spec k name) as [->|Hk]; simpl.
    + intuition.
    + rewrite IH. intuition.
Qed.

Lemma NoDup_obj_set name value (o : params) :
  NoDup (keys o) -> NoDup (keys (obj_set name value o)).
Proof.
  induction o as [|[k v] o IH]; simpl; intros Hnd.
  - repeat constructor. auto.
  - inversion Hnd as [|? ? Hfresh Hnd']; subst.
    destruct (String.eqb_spec k name) as [->|Hk]; simpl.
    + now constructor.
    + constructor; auto. rewrite In_keys_obj_set. intuition.
Qed.

(** A spread leaves each key once. *)
Lemma NoDup_obj_spread source : forall target,
  NoDup (keys target) -> NoDup (keys (obj_spread target source)).
Proof.
  unfold obj_spread.
  induction source as [|[k v] source IH]; intros target Hnd; simpl; auto.
  apply IH. now apply NoDup_obj_set.
Qed.

(** In a bag with each key once, the value of a key decides what the URL
    has for it. *)
Lemma contributions_get key ps old :
  NoDup (keys ps) ->
  contributions key ps old =
  match obj_get key ps with
  | Some value => contribution value old
  | None => old
  end.
Proof.
  intros Hnd. destruct (obj_get key ps) as [value|] eqn:Hget.
  - apply contributions_unique; auto. now apply obj_get_In.
  - apply contributions_absent. now apply obj_get_None.
Qed.




(** The limit of the searches by tag, by creator and by type is the
    caller's too. *)
Lemma search_helpers_limit filter options :
  NoDup (keys options) ->
  obj_get "limit" (bag (SearchModelsByTag filter options)) =
    obj_get "limit" options /\
  obj_get "limit" (bag (SearchModelsByCreator filter options)) =
    obj_get "limit" options /\
  obj_get "limit" (bag (GetModelsByType filter options)) =
    obj_get "limit" options.
Proof.
  intros Hnd. cbn [bag].
  unfold searchModelsByTag_params, searchModelsByCreator_params,
    getModelsByType_params.
  rewrite !obj_get_spread by assumption.
  now destruct (obj_get "limit" options).
Qed.

(** ** Requests *)

Lemma perform_makeRequest zod_message this fetch op :
  perform zod_message this fetch op =
  makeRequest zod_message this fetch (request_url (outbound this op))
    (schema_of op).
Proof. destruct op; reflexivity. Qed.

(** The one call of [fetch] an operation makes is the call on its
    outbound request. *)
Lemma perform_single_call zod_message this fetch fetch' op :
  fetch (outbound this op) = fetch' (outbound this op) ->
  perform zod_message this fetch op = perform zod_message this fetch' op.
Proof.
  intros H. rewrite !perform_makeRequest. unfold makeRequest.
  change (request_of this (request_url (outbound this op)))
    with (outbound this op).
  now rewrite H.
Qed.

(** C5.  When the call completes with a status outside 200..299, the
    operation fails with the message [API request failed: HTTP <status>:
    <status text>]: the body is not read and the schema is not run, so the
    failure is neither the wrapping of a thrown network error nor of a
    validation error. *)
Theorem http_failure zod_message this fetch op response :
  fetch (outbound this op) = Normal response ->
  (status response < 200 \/ 299 < status response)%Z ->
  perform zod_message this fetch op =
  Throws (ErrorObject ("API request failed: HTTP "
                       +:+ number_toString (status response) +:+ ": "
                       +:+ statusText response)).
Proof.
  intros Hfetch Hstatus. rewrite perform_makeRequest. unfold makeRequest.
  change (request_of this (request_url (outbound this op)))
    with (outbound this op).
  rewrite Hfetch. cbn [bind].
  assert (Hok : ok response = false).
  { unfold ok. apply andb_false_iff.
    destruct Hstatus; [left | right]; now apply Z.leb_gt. }
  now rewrite Hok.
Qed.

Lemma http_failure_witness :
  let fetch := fun _ : Request =>
    Normal (mkResponse 429%Z "Too Many Requests" (Normal VNull)) in
  let response := mkResponse 429%Z "Too Many Requests" (Normal VNull) in
  fetch (outbound (mkClient None) (GetTags [])) = Normal response /\
  (status response < 200 \/ 299 < status response)%Z /\
  perform (fun _ => "invalid") (mkClient None) fetch (GetTags []) =
  Throws (ErrorObject "API request failed: HTTP 429: Too Many Requests").
Proof.
  intros fetch response.
  assert (Hstatus : (status response < 200 \/ 299 < status response)%Z)
    by (right; reflexivity).
  split; [reflexivity|]. split; [exact Hstatus|].
  exact (http_failure (fun _ => "invalid") (mkClient None) fetch (GetTags [])
           response eq_refl Hstatus).
Defined.

(** C6.  When the call of [fetch] throws an error, the operation fails
    with [API request failed: ] followed by the message of that error; and
    whatever makes an operation fail, the failure is an error whose message
    starts with [API request failed: ]. *)
Theorem transport_failure zod_message this fetch op :
  (forall message,
     fetch (outbound this op) = Throws (ErrorObject message) ->
     perform zod_message this fetch op =
     Throws (ErrorObject ("API request failed: " +:+ message))) /\
  (forall e,
     perform zod_message this fetch op = Throws e ->
     exists message, e = ErrorObject ("API request failed: " +:+ message)).
Proof.
  rewrite perform_makeRequest. unfold makeRequest.
  change (request_of this (request_url (outbound this op)))
    with (outbound this op).
  split.
  - intros message Hfetch. now rewrite Hfetch.
  - intros e. unfold try_catch.
    match goal with
    | |- context [match ?body with Normal _ => _ | Throws _ => _ end] =>
        destruct body as [a|cause]
    end; [discriminate|].
    intros [= <-]. now exists (message_of cause).
Qed.

Lemma transport_failure_witness :
  let fetch := fun _ : Request =>
    @Throws Response (ErrorObject "getaddrinfo ENOTFOUND civitai.com") in
  fetch (outbound (mkClient None) (GetCreators [])) =
    Throws (ErrorObject "getaddrinfo ENOTFOUND civitai.com") /\
  perform (fun _ => "invalid") (mkClient None) fetch (GetCreators []) =
  Throws (ErrorObject
            "API request failed: getaddrinfo ENOTFOUND civitai.com").
Proof.
  intros fetch. split; [reflexivity|].
  exact (proj1 (transport_failure (fun _ => "invalid") (mkClient None) fetch
                  (GetCreators []))
           "getaddrinfo ENOTFOUND civitai.com" eq_refl).
Defined.

(** ** Objects and object schemas *)

Lemma prop_delete key name fields :
  prop key (delete_prop name fields) =
  if name =? key then VUndefined else prop key fields.
Proof.
  induction fields as [|[k v] fields IH]; simpl.
  - now destruct (name =? key).
  - destruct (String.eqb_spec k name) as [->|Hk]; simpl.
    + rewrite IH. now destruct (name =? key).
    + rewrite IH. destruct (String.eqb_spec name key) as [->|Hn]; auto.
      apply String.eqb_neq in Hk. now rewrite Hk.
Qed.

Lemma has_prop_delete key fields :
  has_prop key (delete_prop key fields) = false.
Proof.
  unfold has_prop, delete_prop.
  induction fields as [|[k v] fields IH]; simpl; auto.
  destruct (k =? key) eqn:Hk; simpl; auto. now rewrite Hk.
Qed.

Lemma prop_set key name v fields :
  prop key (set_prop name v fields) =
  if name =? key then v else prop key fields.
Proof.
  induction fields as [|[k old] fields IH]; simpl.
  - now destruct (name =? key).
  - destruct (String.eqb_spec k name) as [->|Hk]; simpl.
    + now destruct (name =? key).
    + rewrite IH. destruct (String.eqb_spec name key) as [->|Hn]; auto.
      apply String.eqb_neq in Hk. now rewrite Hk.
Qed.

Lemma has_prop_set key v fields : has_prop key (set_prop key v fields) = true.
Proof.
  unfold has_prop.
  induction fields as [|[k old] fields IH]; simpl.
  - now rewrite String.eqb_refl.
  - destruct (k =? key) eqn:Hk; simpl; now rewrite Hk.
Qed.

(** An object schema accepts an object exactly when each field of the
    shape accepts the property of its key. *)
Lemma z_object_valid shape data :
  is_valid (z_object shape (VObj data)) =
  forallb (fun f => is_valid (snd f (prop (fst f) data))) shape.
Proof.
  unfold z_object.
  induction shape as [|[key field] shape IH]; simpl; auto.
  rewrite <- IH.
  destruct (field (prop key data)), (z_object_fields shape data);
    reflexivity.
Qed.

Lemma z_object_rejects shape key field data :
  In (key, field) shape -> is_valid (field (prop key data)) = false ->
  is_valid (z_object shape (VObj data)) = false.
Proof.
  intros Hin Hbad. rewrite z_object_valid.
  apply not_true_is_false. intros Hall.
  rewrite forallb_forall in Hall. specialize (Hall _ Hin). simpl in Hall.
  congruence.
Qed.

Lemma z_object_valid_ext shape data data' :
  (forall key field, In (key, field) shape ->
     is_valid (field (prop key data)) = true ->
     is_valid (field (prop key data')) = true) ->
  is_valid (z_object shape (VObj data)) = true ->
  is_valid (z_object shape (VObj data')) = true.
Proof.
  intros Hext. rewrite !z_object_valid, !forallb_forall.
  intros Hall [key field] Hin. apply Hext; [exact Hin|]. exact (Hall _ Hin).
Qed.

Lemma z_object_inv shape input out :
  z_object shape input = Valid out ->
  exists data outs,
    input = VObj data /\ out = VObj outs /\
    z_object_fields shape data = inr outs.
Proof.
  unfold z_object. destruct input; try discriminate.
  destruct (z_object_fields shape fields) as [issues|outs] eqn:H;
    intros [= <-]. now exists fields, outs.
Qed.

(** The output of an object schema has, for each key of the shape, the
    output of that key's field. *)
Lemma z_object_fields_prop shape data : forall outs key field,
  z_object_fields shape data = inr outs ->
  NoDup (map fst shape) -> In (key, field) shape ->
  exists out, field (prop key data) = Valid out /\ prop key outs = out.
Proof.
  induction shape as [|[k f] shape IH]; intros outs key field Hrun Hnd Hin;
    [destruct Hin|].
  simpl in Hrun. inversion Hnd as [|? ? Hfresh Hnd']; subst.
  destruct (f (prop k data)) as [out|issues] eqn:Hf;
    destruct (z_object_fields shape data) as [more|outs'] eqn:Hrest;
    try discriminate.
  injection Hrun as <-.
  destruct Hin as [[= <- <-]|Hin].
  - exists out. split; auto.
    destruct (is_undefined out && negb (has_prop k data)) eqn:Hskip.
    + apply andb_true_iff in Hskip as [Hu _].
      destruct out; try discriminate.
      clear - Hrest Hfresh. revert outs' Hrest Hfresh.
      induction shape as [|[k' f'] shape IH]; intros outs' Hrest Hfresh.
      * now injection Hrest as <-.
      * simpl in Hrest, Hfresh.
        destruct (f' (prop k' data)) as [out'|];
          destruct (z_object_fields shape data) as [|outs''];
          try discriminate.
        injection Hrest as <-.
        assert (Hk : (k' =? k) = false) by (apply String.eqb_neq; tauto).
        destruct (is_undefined out' && negb (has_prop k' data)); simpl;
          rewrite ?Hk; apply IH; auto.
    + simpl. now rewrite String.eqb_refl.
  - destruct (IH outs' key field eq_refl Hnd' Hin) as [o [Ho Hp]].
    exists o. split; auto.
    assert (Hk : (k =? key) = false).
    { apply String.eqb_neq. intros ->. apply Hfresh.
      change key with (fst (key, field)). now apply in_map. }
    destruct (is_undefined out && negb (has_prop k data)); simpl;
      rewrite ?Hk; auto.
Qed.

(** The output has a key of the shape when the field's output is defined
    or the input had the key. *)
Lemma z_object_fields_has_prop shape data : forall outs key,
  z_object_fields shape data = inr outs ->
  has_prop key outs =
  existsb (fun f =>
             (fst f =? key) &&
             match snd f (prop (fst f) data) with
             | Valid out => negb (is_undefined out
                                  && negb (has_prop (fst f) data))
             | Invalid _ => false
             end) shape.
Proof.
  induction shape as [|[k f] shape IH]; intros outs key Hrun; simpl in *.
  - now injection Hrun as <-.
  - destruct (f (prop k data)) as [out|issues] eqn:Hf;
      destruct (z_object_fields shape data) as [more|outs'] eqn:Hrest;
      try discriminate.
    injection Hrun as <-. rewrite <- (IH outs' key eq_refl).
    destruct (is_undefined out && negb (has_prop k data)); simpl.
    + now rewrite andb_false_r.
    + now rewrite andb_true_r.
Qed.

(** ** The entity schemas *)

(** C7.  The Image schema accepts an object with only its four required
    fields, so without [id], and returns it as it is; dropping [id] from an
    image the schema accepts gives an image it accepts, whose output has no
    [id]; giving [nsfwLevel] a number or one of the level names does too,
    and the output keeps the value given.  The Metadata schema accepts
    [nextCursor] set to a string or to a number and keeps it. *)
Theorem schemas_tolerate_upstream :
  (forall url hash width height,
     let image := VObj [("url", VStr url); ("hash", VStr hash);
                        ("width", VNum width); ("height", VNum height)] in
     ImageSchema image = Valid image) /\
  (forall data,
     is_valid (ImageSchema (VObj data)) = true ->
     exists out,
       ImageSchema (VObj (delete_prop "id" data)) = Valid (VObj out) /\
       has_prop "id" out = false /\ prop "id" out = VUndefined) /\
  (forall data level,
     is_valid (ImageSchema (VObj data)) = true ->
     (exists n, level = VNum n) \/
     (exists name, level = VStr name /\
                   In name ["None"; "Soft"; "Mature"; "X"]) ->
     exists out,
       ImageSchema (VObj (set_prop "nsfwLevel" level data)) = Valid (VObj out)
       /\ prop "nsfwLevel" out = level) /\
  (forall data cursor,
     is_valid (MetadataSchema (VObj data)) = true ->
     (exists n, cursor = VNum n) \/ (exists s, cursor = VStr s) ->
     exists out,
       MetadataSchema (VObj (set_prop "nextCursor" cursor data))
         = Valid (VObj out)
       /\ prop "nextCursor" out = cursor) /\
  MetadataSchema (VObj []) = Valid (VObj []).
Proof.
  split; [reflexivity|]. split; [|split; [|split; [|reflexivity]]].
  - intros data Hvalid.
    assert (Hvalid' :
              is_valid (ImageSchema (VObj (delete_prop "id" data))) = true).
    { revert Hvalid. apply z_object_valid_ext. intros key field Hin.
      shape_cases Hin; rewrite prop_delete; auto. }
    destruct (ImageSchema (VObj (delete_prop "id" data))) as [out|] eqn:Hrun;
      [|discriminate].
    destruct (z_object_inv _ _ _ Hrun) as (data' & outs & [= <-] & -> & Hf).
    exists outs. split; [reflexivity|].
    assert (Hhas : has_prop "id" outs = false).
    { rewrite (z_object_fields_has_prop _ _ _ "id" Hf).
      cbn [existsb fst snd String.eqb Ascii.eqb Bool.eqb andb orb].
      rewrite prop_delete, has_prop_delete. reflexivity. }
    split; [exact Hhas|].
    clear - Hhas. unfold has_prop in Hhas.
    induction outs as [|[k v] outs IH]; simpl in *; auto.
    destruct (k =? "id"); [discriminate|auto].
  - intros data level Hvalid Hlevel.
    assert (Hlevel' :
              z_optional (z_union [NSFWLevel; z_number]) level = Valid level).
    { destruct Hlevel as [[n ->]|[name [-> Hname]]]; [reflexivity|].
      cbn [In] in Hname.
      repeat (destruct Hname as [<-|Hname]; [reflexivity|]).
      destruct Hname. }
    assert (Hvalid' : is_valid (ImageSchema
                                  (VObj (set_prop "nsfwLevel" level data)))
                      = true).
    { revert Hvalid. apply z_object_valid_ext. intros key field Hin.
      shape_cases Hin; rewrite prop_set; auto.
      intros _. cbn [String.eqb Ascii.eqb Bool.eqb].
      change (is_valid (z_optional (z_union [NSFWLevel; z_number]) level)
              = true).
      now rewrite Hlevel'. }
    destruct (ImageSchema (VObj (set_prop "nsfwLevel" level data)))
      as [out|] eqn:Hrun; [|discriminate].
    destruct (z_object_inv _ _ _ Hrun) as (data' & outs & [= <-] & -> & Hf).
    exists outs. split; [reflexivity|].
    destruct (z_object_fields_prop _ _ outs "nsfwLevel"
                (z_optional (z_union [NSFWLevel; z_number])) Hf)
      as [o [Ho Hp]].
    { repeat constructor; cbn [In map fst]; intuition discriminate. }
    { cbn [In]. tauto. }
    rewrite prop_set in Ho. cbn [String.eqb Ascii.eqb Bool.eqb] in Ho.
    congruence.
  - intros data cursor Hvalid Hcursor.
    assert (Hcursor' :
              z_optional (z_union [z_number; z_string]) cursor = Valid cursor)
      by (destruct Hcursor as [[n ->]|[s ->]]; reflexivity).
    assert (Hvalid' : is_valid (MetadataSchema
                                  (VObj (set_prop "nextCursor" cursor data)))
                      = true).
    { revert Hvalid. apply z_object_valid_ext. intros key field Hin.
      shape_cases Hin; rewrite prop_set; auto.
      intros _. cbn [String.eqb Ascii.eqb Bool.eqb].
      change (is_valid (z_optional (z_union [z_number; z_string]) cursor)
              = true).
      now rewrite Hcursor'. }
    destruct (MetadataSchema (VObj (set_prop "nextCursor" cursor data)))
      as [out|] eqn:Hrun; [|discriminate].
    destruct (z_object_inv _ _ _ Hrun) as (data' & outs & [= <-] & -> & Hf).
    exists outs. split; [reflexivity|].
    destruct (z_object_fields_prop _ _ outs "nextCursor"
                (z_optional (z_union [z_number; z_string])) Hf)
      as [o [Ho Hp]].
    { repeat constructor; cbn [In map fst]; intuition discriminate. }
    { cbn [In]. tauto. }
    rewrite prop_set in Ho. cbn [String.eqb Ascii.eqb Bool.eqb] in Ho.
    congruence.
Qed.

Lemma schemas_tolerate_upstream_witness :
  let data := [("id", VNum 7%Z); ("url", VStr "u"); ("hash", VStr "h");
               ("width", VNum 512%Z); ("height", VNum 768%Z);
               ("nsfwLevel", VStr "Mature")] in
  is_valid (ImageSchema (VObj data)) = true /\
  is_valid (MetadataSchema (VObj [])) = true /\
  (exists out,
     ImageSchema (VObj (delete_prop "id" data)) = Valid (VObj out) /\
     has_prop "id" out = false /\ prop "id" out = VUndefined) /\
  (exists out,
     ImageSchema (VObj (set_prop "nsfwLevel" (VNum 2%Z) data))
       = Valid (VObj out) /\
     prop "nsfwLevel" out = VNum 2%Z) /\
  (exists out,
     ImageSchema (VObj (set_prop "nsfwLevel" (VStr "Mature") data))
       = Valid (VObj out) /\
     prop "nsfwLevel" out = VStr "Mature") /\
  (exists out,
     MetadataSchema (VObj (set_prop "nextCursor" (VStr "abc123") []))
       = Valid (VObj out) /\
     prop "nextCursor" out = VStr "abc123") /\
  (exists out,
     MetadataSchema (VObj (set_prop "nextCursor" (VNum 42%Z) []))
       = Valid (VObj out) /\
     prop "nextCursor" out = VNum 42%Z).
Proof.
  intros data.
  destruct schemas_tolerate_upstream as [_ [Hid [Hlevel [Hcursor _]]]].
  assert (Himage : is_valid (ImageSchema (VObj data)) = true) by reflexivity.
  assert (Hmeta : is_valid (MetadataSchema (VObj [])) = true) by reflexivity.
  split; [exact Himage|]. split; [exact Hmeta|].
  split; [exact (Hid data Himage)|].
  split.
  { apply (Hlevel data (VNum 2%Z) Himage). left. now exists 2%Z. }
  split.
  { apply (Hlevel data (VStr "Mature") Himage). right. exists "Mature".
    split; [reflexivity|]. cbn [In]. tauto. }
  split.
  { apply (Hcursor [] (VStr "abc123") Hmeta). right. now exists "abc123". }
  apply (Hcursor [] (VNum 42%Z) Hmeta). left. now exists 42%Z.
Defined.

Lemma prop_missing key fields :
  has_prop key fields = false -> prop key fields = VUndefined.
Proof.
  unfold has_prop.
  induction fields as [|[k v] fields IH]; simpl; auto.
  destruct (k =? key); [discriminate|auto].
Qed.

Lemma ModelType_accepts input :
  is_valid (ModelType input) = true ->
  exists name, input = VStr name /\ In name ModelType_values.
Proof.
  unfold ModelType, z_enum. destruct input; try discriminate.
  destruct (existsb (String.eqb s) ModelType_values) eqn:Hin;
    [|discriminate].
  intros _. exists s. split; auto.
  apply existsb_exists in Hin as [name [Hname Heq]].
  apply String.eqb_eq in Heq. now subst.
Qed.

(** C8.  The Model schema rejects every object whose [type] is missing or
    is not one of the seven model types, and the output of every model it
    accepts has a [modelVersions] array. *)
Theorem ModelSchema_type_and_versions :
  (forall data,
     has_prop "type" data = false \/
     (forall name, In name ModelType_values ->
                   prop "type" data <> VStr name) ->
     exists issues, ModelSchema (VObj data) = Invalid issues) /\
  (forall input out,
     ModelSchema input = Valid out ->
     exists outs versions,
       out = VObj outs /\ has_prop "modelVersions" outs = true /\
       prop "modelVersions" outs = VArr versions).
Proof.
  split.
  - intros data Htype.
    assert (Hbad : is_valid (ModelType (prop "type" data)) = false).
    { apply not_true_is_false. intros Hok.
      apply ModelType_accepts in Hok as [name [Hname Hin]].
      destruct Htype as [Hmissing|Hnot].
      - apply prop_missing in Hmissing. congruence.
      - now apply (Hnot name). }
    assert (Hrej : is_valid (ModelSchema (VObj data)) = false).
    { apply (z_object_rejects ModelSchema_shape "type" ModelType); auto.
      cbn [In ModelSchema_shape]. tauto. }
    destruct (ModelSchema (VObj data)) as [out|issues]; [discriminate|].
    now exists issues.
  - intros input out Hrun.
    destruct (z_object_inv _ _ _ Hrun) as (data & outs & -> & -> & Hf).
    destruct (z_object_fields_prop _ _ outs "modelVersions"
                (z_array ModelVersionSchema) Hf) as [o [Ho Hp]].
    { repeat constructor; cbn [In map fst ModelSchema_shape];
        intuition discriminate. }
    { cbn [In ModelSchema_shape]. tauto. }
    assert (Harr : exists versions, o = VArr versions).
    { unfold z_array in Ho.
      destruct (prop "modelVersions" data); try discriminate.
      destruct (z_array_items ModelVersionSchema 0 items) as [|versions];
        [discriminate|].
      injection Ho as <-. now exists versions. }
    destruct Harr as [versions ->].
    exists outs, versions. split; [reflexivity|]. split; [|exact Hp].
    clear - Hp. unfold has_prop.
    induction outs as [|[k v] outs IH]; simpl in *; [discriminate|].
    destruct (k =? "modelVersions"); auto.
Qed.

Lemma ModelSchema_type_and_versions_witness :
  let data := [("id", VNum 1%Z); ("name", VStr "n");
               ("description", VStr "d"); ("nsfw", VBool false);
               ("tags", VArr []); ("mode", VNull);
               ("creator", VObj [("username", VStr "u")]);
               ("modelVersions", VArr [])] in
  has_prop "type" data = false /\
  (exists issues, ModelSchema (VObj data) = Invalid issues) /\
  ModelSchema (minimal_model 1%Z "n" "d" "LORA" false "u") =
    Valid (minimal_model 1%Z "n" "d" "LORA" false "u") /\
  (exists outs versions,
     minimal_model 1%Z "n" "d" "LORA" false "u" = VObj outs /\
     has_prop "modelVersions" outs = true /\
     prop "modelVersions" outs = VArr versions).
Proof.
  intros data.
  destruct ModelSchema_type_and_versions as [Hreject Hversions].
  assert (Hmissing : has_prop "type" data = false) by reflexivity.
  assert (Hrun : ModelSchema (minimal_model 1%Z "n" "d" "LORA" false "u") =
                 Valid (minimal_model 1%Z "n" "d" "LORA" false "u"))
    by reflexivity.
  split; [exact Hmissing|].
  split; [exact (Hreject data (or_introl Hmissing))|].
  split; [exact Hrun|].
  exact (Hversions _ _ Hrun).
Defined.

(** C9.  A minimal model (id, name, description, type, nsfw, no tags, null
    mode, a creator with a username, no versions) whose type is one of the
    model types is accepted by the Model schema, and the output is the
    input, field by field. *)
Theorem ModelSchema_round_trip id name description type nsfw username :
  In type ModelType_values ->
  ModelSchema (minimal_model id name description type nsfw username) =
  Valid (minimal_model id name description type nsfw username).
Proof.
  intros Htype. cbn [In ModelType_values] in Htype.
  repeat (destruct Htype as [<-|Htype]; [reflexivity|]).
  destruct Htype.
Qed.

Lemma ModelSchema_round_trip_witness :
  In "Checkpoint" ModelType_values /\
  ModelSchema (minimal_model 42%Z "name" "text" "Checkpoint" true "ann") =
  Valid (minimal_model 42%Z "name" "text" "Checkpoint" true "ann").
Proof.
  assert (Htype : In "Checkpoint" ModelType_values) by (cbn [In ModelType_values]; tauto).
  split; [exact Htype|].
  exact (ModelSchema_round_trip 42%Z "name" "text" "Checkpoint" true "ann"
           Htype).
Defined.

(** * Further properties *)

(** ** The whole query of [buildUrl] *)

Lemma sp_has_app key l1 l2 :
  sp_has key (l1 ++ l2) = sp_has key l1 || sp_has key l2.
Proof. unfold sp_has. apply existsb_app. Qed.

Lemma sp_set_fresh name value l :
  sp_has name l = false -> sp_set name value l = l ++ [(name, value)].
Proof.
  unfold sp_has.
  induction l as [|[n v] l IH]; simpl; auto.
  destruct (n =? name); simpl; [discriminate|].
  intros H. now rewrite (IH H).
Qed.

Lemma sp_has_entry_pairs key name value :
  (name =? key) = false -> sp_has key (entry_pairs (name, value)) = false.
Proof.
  intros Hn. unfold entry_pairs.
  destruct (is_sent value); auto.
  destruct value as [| |x|xs]; auto.
  - unfold sp_has. simpl. now rewrite Hn.
  - unfold sp_has. induction xs as [|x xs IH]; simpl; auto. now rewrite Hn.
Qed.

Lemma url_searchParams_append_all name xs : forall url,
  url_searchParams
    (fold_left (fun u v => URL_searchParams_append name (scalar_toString v) u)
               xs url) =
  url_searchParams url ++ map (fun x => (name, scalar_toString x)) xs.
Proof.
  induction xs as [|x xs IH]; intros url; simpl.
  - now rewrite app_nil_r.
  - rewrite IH. simpl. unfold sp_append. now rewrite <- app_assoc.
Qed.

(** An entry whose key is not yet in the list adds its pairs at the end. *)
Lemma url_searchParams_add_param url entry :
  sp_has (fst entry) (url_searchParams url) = false ->
  url_searchParams (add_param url entry) =
  url_searchParams url ++ entry_pairs entry.
Proof.
  destruct entry as [key value]. cbn [fst]. intros Hfresh.
  unfold add_param, entry_pairs.
  destruct (is_sent value); [|now rewrite app_nil_r].
  destruct value as [| |x|xs]; try (now rewrite app_nil_r).
  - simpl. now apply sp_set_fresh.
  - apply url_searchParams_append_all.
Qed.

Lemma url_searchParams_fold ps : forall url,
  NoDup (keys ps) ->
  (forall key, In key (keys ps) ->
               sp_has key (url_searchParams url) = false) ->
  url_searchParams (fold_left add_param ps url) =
  url_searchParams url ++ flat_map entry_pairs ps.
Proof.
  induction ps as [|[key value] ps IH]; intros url Hnd Hfresh;
    cbn [fold_left flat_map].
  - now rewrite app_nil_r.
  - inversion Hnd as [|? ? Hnew Hnd']; subst.
    rewrite IH; auto.
    + rewrite url_searchParams_add_param by (apply Hfresh; simpl; auto).
      now rewrite <- app_assoc.
    + intros k Hk.
      rewrite url_searchParams_add_param by (apply Hfresh; simpl; auto).
      rewrite sp_has_app, (Hfresh k) by (simpl; auto).
      apply sp_has_entry_pairs. apply String.eqb_neq. intros ->. tauto.
Qed.

Lemma tidy_update base url l : tidy base url -> tidy base (URL_update url l).
Proof.
  intros (Hb & Hf & _). unfold tidy, URL_update.
  cbn [url_base url_query url_fragment url_searchParams].
  rewrite urlencoded_serialize_empty. now destruct l.
Qed.

Lemma tidy_add_param base url entry :
  tidy base url -> tidy base (add_param url entry).
Proof.
  destruct entry as [key value]. unfold add_param. intros H.
  destruct (is_sent value); auto.
  destruct value as [| |x|xs]; auto.
  - now apply tidy_update.
  - revert url H.
    induction xs as [|x xs IH]; intros url H; cbn [fold_left]; auto.
    apply IH. now apply tidy_update.
Qed.

Lemma tidy_fold base ps : forall url,
  tidy base url -> tidy base (fold_left add_param ps url).
Proof.
  induction ps as [|entry ps IH]; intros url H; cbn [fold_left]; auto.
  apply IH. now apply tidy_add_param.
Qed.

Lemma tidy_toString base url :
  tidy base url ->
  URL_toString url = base +:+ query_text (url_searchParams url).
Proof.
  intros (Hb & Hf & Hq). unfold URL_toString. rewrite Hb, Hf, Hq.
  destruct (url_searchParams url); cbn [query_text];
    now rewrite ?append_nil_r.
Qed.

Lemma path_char_plain a :
  path_char a = true -> a <> "#"%char /\ a <> "?"%char.
Proof.
  intros H. split; intros ->; discriminate.
Qed.

Lemma path_kept_plain ep : path_kept ep = true -> plain ep = true.
Proof.
  unfold plain. induction ep as [|a ep IH]; cbn [path_kept lacks]; auto.
  intros H. apply andb_true_iff in H as [Ha Hep].
  apply IH in Hep. apply andb_true_iff in Hep as [-> ->].
  destruct (path_char_plain a Ha) as [Hhash Hmark].
  apply Ascii.eqb_neq in Hhash, Hmark. now rewrite Hhash, Hmark.
Qed.

Lemma path_kept_app s t :
  path_kept (s +:+ t) = path_kept s && path_kept t.
Proof.
  induction s as [|a s IH]; cbn [String.append path_kept]; auto.
  now rewrite IH, andb_assoc.
Qed.

Lemma path_kept_uint d : path_kept (NilEmpty.string_of_uint d) = true.
Proof.
  induction d; cbn [NilEmpty.string_of_uint path_kept]; auto;
    now rewrite IHd.
Qed.

(** The decimal text of an id is kept as written. *)
Lemma path_kept_number n : path_kept (number_toString n) = true.
Proof.
  unfold number_toString.
  assert (Hu : forall d, path_kept (NilZero.string_of_uint d) = true).
  { intros d. destruct d; try apply path_kept_uint. reflexivity. }
  destruct (Z.to_int n) as [d|d]; cbn [NilZero.string_of_int path_kept];
    auto.
  now rewrite Hu.
Qed.

(** The endpoints of the operations are kept as written, the one of a
    hash when the hash is. *)
Lemma path_kept_endpoint op :
  (forall hash, op = GetModelVersionByHash hash -> path_kept hash = true) ->
  path_kept (endpoint op) = true.
Proof.
  intros Hhash.
  destruct op; cbn [endpoint]; try reflexivity;
    rewrite path_kept_app; try (now rewrite path_kept_number).
  now rewrite (Hhash hash eq_refl).
Qed.

(** X1.  For an endpoint of letters, digits, [/], [-] and [_], which
    [new URL] keeps as written, and a bag with each key once and no [token]
    key, the URL is the base, the endpoint and the query of the configured
    token followed by the sent entries of the bag in their order, an array
    standing for one pair per element. *)
Theorem buildUrl_closed_form this ep ps :
  path_kept ep = true -> NoDup (keys ps) -> ~ In "token" (keys ps) ->
  buildUrl this ep ps =
  baseUrl +:+ ep +:+ query_text (token_pair this ++ flat_map entry_pairs ps).
Proof.
  intros Hkept Hnd Htoken. unfold buildUrl, buildUrl_url.
  rewrite (new_URL_plain ep (path_kept_plain ep Hkept)).
  set (start := match configured_token this with
                | Some key => _
                | None => _
                end).
  assert (Hstart : tidy (baseUrl +:+ ep) start /\
                   url_searchParams start = token_pair this).
  { assert (Hinit : tidy (baseUrl +:+ ep)
                        (mkURL (baseUrl +:+ ep) None None []))
      by (repeat split).
    unfold start, token_pair. destruct (configured_token this); split;
      try reflexivity; [|exact Hinit].
    unfold URL_searchParams_set. now apply tidy_update. }
  destruct Hstart as [Htidy Hlist].
  rewrite (tidy_toString (baseUrl +:+ ep)) by (now apply tidy_fold).
  rewrite url_searchParams_fold, Hlist, append_assoc; auto.
  intros key Hkey. rewrite Hlist.
  assert (Hneq : "token" <> key) by (intros <-; tauto).
  unfold token_pair, sp_has.
  destruct (configured_token this); cbn [existsb fst]; auto.
  rewrite orb_false_r. now apply String.eqb_neq.
Qed.

Lemma buildUrl_closed_form_witness :
  let this := mkClient (Some "k y") in
  let ps := [("query", str "a&b=c"); ("page", PUndefined);
             ("ids", PArray [SNum 3%Z; SNum 4%Z]);
             ("nsfw", PScalar (SBool false))] in
  path_kept "/models" = true /\ NoDup (keys ps) /\ ~ In "token" (keys ps) /\
  buildUrl this "/models" ps =
  "https://civitai.com/api/v1/models?token=k+y&query=a%26b%3Dc&ids=3&ids=4&nsfw=false".
Proof.
  intros this ps.
  assert (Hnd : NoDup (keys ps))
    by (repeat constructor; simpl; intuition discriminate).
  assert (Htoken : ~ In "token" (keys ps))
    by (simpl; intuition discriminate).
  split; [reflexivity|]. split; [exact Hnd|]. split; [exact Htoken|].
  exact (buildUrl_closed_form this "/models" ps eq_refl Hnd Htoken).
Defined.

(** X2.  A key that the bag does not have, other than [token], is not in
    the URL of a plain endpoint, whatever the values of the bag contain:
    a value cannot bring in a parameter of its own. *)
Theorem buildUrl_no_foreign_key this ep ps key :
  plain ep = true -> ~ In key (keys ps) -> key <> "token" ->
  search_has key (buildUrl this ep ps) = false /\
  search_values key (buildUrl this ep ps) = [].
Proof.
  intros Hep Hnot Hkey.
  assert (Hvalues : search_values key (buildUrl this ep ps) = []).
  { rewrite (search_values_plain key this ep ps Hep).
    rewrite (contributions_absent key ps _ Hnot).
    destruct (String.eqb_spec "token" key); [congruence|reflexivity]. }
  split; [|exact Hvalues]. now apply search_has_values.
Qed.

Lemma buildUrl_no_foreign_key_witness :
  let ps := [("query", str "x&nsfw=true#limit=1?page=2")] in
  plain "/models" = true /\ ~ In "nsfw" (keys ps) /\ "nsfw" <> "token" /\
  search_has "nsfw" (buildUrl (mkClient None) "/models" ps) = false /\
  buildUrl (mkClient None) "/models" ps =
  "https://civitai.com/api/v1/models?query=x%26nsfw%3Dtrue%23limit%3D1%3Fpage%3D2".
Proof.
  intros ps.
  assert (Hnot : ~ In "nsfw" (keys ps)) by (simpl; intuition discriminate).
  assert (Hkey : "nsfw" <> "token") by discriminate.
  split; [reflexivity|]. split; [exact Hnot|]. split; [exact Hkey|].
  split; [|reflexivity].
  exact (proj1 (buildUrl_no_foreign_key (mkClient None) "/models" ps "nsfw"
                  eq_refl Hnot Hkey)).
Defined.

(** ** The lookup by hash *)

(** X3.  The hash is put in the path as it is: when it carries a query,
    the pairs of that query are parameters of the request, after the
    configured token has replaced any [token] among them. *)
Theorem by_hash_query_is_sent this h l :
  plain h = true ->
  let hash := h +:+ "?" +:+ urlencoded_serialize l in
  url_searchParams
    (new_URL (request_url (outbound this (GetModelVersionByHash hash)))) =
  match configured_token this with
  | Some key => sp_set "token" key l
  | None => l
  end.
Proof.
  intros Hh hash. unfold outbound, request_of. cbn [request_url endpoint bag].
  rewrite buildUrl_parses_back. unfold buildUrl_url. cbn [fold_left].
  assert (Hnew : new_URL (baseUrl +:+ "/model-versions/by-hash/" +:+ hash) =
                 mkURL (baseUrl +:+ "/model-versions/by-hash/" +:+ h)
                       (Some (urlencoded_serialize l)) None l).
  { unfold plain in Hh. apply andb_true_iff in Hh as [Hhash Hquery].
    assert (Heq : baseUrl +:+ "/model-versions/by-hash/" +:+ hash =
                  (baseUrl +:+ "/model-versions/by-hash/" +:+ h)
                  +:+ String "?" (urlencoded_serialize l))
      by (unfold hash; now rewrite !append_assoc).
    rewrite Heq. unfold new_URL.
    rewrite (cut_lacks "#").
    - rewrite (cut_at "?") by (rewrite !lacks_app, Hquery; reflexivity).
      now rewrite urlencoded_parse_serialize.
    - rewrite !lacks_app, Hhash. cbn [lacks].
      rewrite lacks_urlencoded_serialize; [reflexivity|reflexivity| |];
        discriminate. }
  rewrite Hnew. now destruct (configured_token this).
Qed.

Lemma by_hash_query_is_sent_witness :
  let this := mkClient (Some "k") in
  let l := [("nsfw", "true"); ("token", "other")] in
  plain "abc" = true /\
  request_url (outbound this (GetModelVersionByHash "abc?nsfw=true&token=other"))
    = "https://civitai.com/api/v1/model-versions/by-hash/abc?nsfw=true&token=k"
  /\
  url_searchParams
    (new_URL (request_url
                (outbound this
                   (GetModelVersionByHash ("abc" +:+ "?" +:+ urlencoded_serialize l)))))
    = [("nsfw", "true"); ("token", "k")].
Proof.
  intros this l. split; [reflexivity|]. split; [reflexivity|].
  exact (by_hash_query_is_sent this "abc" l eq_refl).
Defined.

(** ** The bags of the search helpers *)

(** X4.  In the bag of a search helper the caller's options come after the
    helper's own filter: a key has the value the options give it, and the
    filter key has the helper's argument only when the options leave it
    out. *)
Theorem search_helpers_options_win filter options key :
  NoDup (keys options) ->
  let own name value :=
    match obj_get key options with
    | Some v => Some v
    | None => if name =? key then Some value else None
    end in
  obj_get key (bag (SearchModels filter options)) = own "query" (str filter) /\
  obj_get key (bag (SearchModelsByTag filter options)) =
    own "tag" (str filter) /\
  obj_get key (bag (SearchModelsByCreator filter options)) =
    own "username" (str filter) /\
  obj_get key (bag (GetModelsByType filter options)) =
    own "types" (PArray [SStr filter]).
Proof.
  intros Hnd own. unfold own. cbn [bag].
  unfold searchModels_params, searchModelsByTag_params,
    searchModelsByCreator_params, getModelsByType_params.
  rewrite !obj_get_spread by assumption. cbn [obj_get]. auto.
Qed.

Lemma search_helpers_options_win_witness :
  let options := [("limit", num 5%Z); ("tag", str "photo")] in
  NoDup (keys options) /\
  obj_get "tag" (bag (SearchModelsByTag "anime" options)) =
    Some (str "photo") /\
  request_url (outbound (mkClient None) (SearchModelsByTag "anime" options)) =
    "https://civitai.com/api/v1/models?tag=photo&limit=5".
Proof.
  intros options.
  assert (Hnd : NoDup (keys options))
    by (repeat constructor; simpl; intuition discriminate).
  split; [exact Hnd|]. split; [|reflexivity].
  exact (proj1 (proj2 (search_helpers_options_win "anime" options "tag" Hnd))).
Defined.

(** ** The outcome of a request that got a response *)

(** X5.  An operation returns a value exactly when the call of [fetch]
    gave a response with a status in 200..299 whose body decoded to a value
    the schema of the operation accepts; the value returned is the output
    of the schema. *)
Theorem perform_succeeds zod_message this fetch op out :
  perform zod_message this fetch op = Normal out <->
  exists response data,
    fetch (outbound this op) = Normal response /\
    (200 <= status response <= 299)%Z /\
    json response = Normal data /\
    schema_of op data = Valid out.
Proof.
  rewrite perform_makeRequest. unfold makeRequest, parse.
  change (request_of this (request_url (outbound this op)))
    with (outbound this op).
  split.
  - destruct (fetch (outbound this op)) as [response|e]; [|discriminate].
    cbn [bind try_catch]. unfold ok.
    destruct (200 <=? status response)%Z eqn:Hlow;
      destruct (status response <=? 299)%Z eqn:Hhigh;
      cbn [andb negb]; try discriminate.
    destruct (json response) as [data|e] eqn:Hjson; [|discriminate].
    cbn [bind]. destruct (schema_of op data) as [o|issues] eqn:Hs;
      [|discriminate].
    intros [= <-]. exists response, data.
    apply Z.leb_le in Hlow, Hhigh. auto.
  - intros (response & data & -> & [Hlow Hhigh] & Hjson & Hs).
    cbn [bind]. unfold ok.
    apply Z.leb_le in Hlow, Hhigh. rewrite Hlow, Hhigh. cbn [andb negb].
    rewrite Hjson. cbn [bind]. now rewrite Hs.
Qed.

(** X6.  After a response with a status in 200..299, a body the schema
    rejects makes the operation fail with the text of the issues, and a
    body that cannot be decoded makes it fail with the message of what
    [response.json()] threw, [Unknown error] when that is not an error. *)
Theorem ok_response_failures zod_message this fetch op response :
  fetch (outbound this op) = Normal response ->
  (200 <= status response <= 299)%Z ->
  (forall data issues,
     json response = Normal data -> schema_of op data = Invalid issues ->
     perform zod_message this fetch op =
     Throws (ErrorObject ("API request failed: " +:+ zod_message issues))) /\
  (forall message,
     json response = Throws (ErrorObject message) ->
     perform zod_message this fetch op =
     Throws (ErrorObject ("API request failed: " +:+ message))) /\
  (json response = Throws OtherValue ->
   perform zod_message this fetch op =
   Throws (ErrorObject "API request failed: Unknown error")).
Proof.
  intros Hfetch [Hlow Hhigh].
  rewrite perform_makeRequest. unfold makeRequest, parse.
  change (request_of this (request_url (outbound this op)))
    with (outbound this op).
  rewrite Hfetch. cbn [bind]. unfold ok.
  apply Z.leb_le in Hlow, Hhigh. rewrite Hlow, Hhigh. cbn [andb negb].
  split; [|split].
  - intros data issues -> Hs. cbn [bind]. now rewrite Hs.
  - now intros message ->.
  - now intros ->.
Qed.

Lemma ok_response_failures_witness :
  let response := mkResponse 200%Z "OK" (Normal (VObj [("items", VArr [])])) in
  let fetch := fun _ : Request => Normal response in
  let render := fun issues : list issue =>
    number_toString (Z.of_nat (List.length issues)) +:+ " issue(s)" in
  fetch (outbound (mkClient None) (GetTags [])) = Normal response /\
  (200 <= status response <= 299)%Z /\
  perform render (mkClient None) fetch (GetTags []) =
  Throws (ErrorObject "API request failed: 1 issue(s)").
Proof.
  intros response fetch render.
  assert (Hstatus : (200 <= status response <= 299)%Z) by (cbn; lia).
  split; [reflexivity|]. split; [exact Hstatus|].
  exact (proj1 (ok_response_failures render (mkClient None) fetch (GetTags [])
                  response eq_refl Hstatus)
           (VObj [("items", VArr [])])
           [mkIssue invalid_type [PKey "metadata"]] eq_refl eq_refl).
Defined.

Lemma perform_succeeds_witness :
  let body := VObj [("items", VArr [VObj [("name", VStr "anime");
                                          ("extra", VNull)]]);
                    ("metadata", VObj [("nextCursor", VNum 2%Z)])] in
  let out := VObj [("items", VArr [VObj [("name", VStr "anime")]]);
                   ("metadata", VObj [("nextCursor", VNum 2%Z)])] in
  let response := mkResponse 200%Z "OK" (Normal body) in
  let fetch := fun _ : Request => Normal response in
  (exists response data,
     fetch (outbound (mkClient None) (GetTags [])) = Normal response /\
     (200 <= status response <= 299)%Z /\
     json response = Normal data /\
     schema_of (GetTags []) data = Valid out) /\
  perform (fun _ => "invalid") (mkClient None) fetch (GetTags []) = Normal out.
Proof.
  intros body out response fetch.
  assert (H : exists response data,
             fetch (outbound (mkClient None) (GetTags [])) = Normal response /\
             (200 <= status response <= 299)%Z /\
             json response = Normal data /\
             schema_of (GetTags []) data = Valid out).
  { exists response, body. repeat split; cbn; lia. }
  split; [exact H|].
  exact (proj2 (perform_succeeds (fun _ => "invalid") (mkClient None) fetch
                  (GetTags []) out) H).
Defined.

(** ** The tools that pass their arguments twice *)

(** X7.  The tools [search_models_by_tag] and [search_models_by_creator]
    call the client with the filter read from the arguments and with all
    the arguments as options.  The request then has, for every key, the
    values a plain search with the same arguments has: the filter is sent
    once, not twice. *)
Theorem filter_tools_send_arguments_once this args filter key :
  NoDup (keys args) ->
  (obj_get "tag" args = Some (str filter) ->
   search_values key
     (request_url (outbound this (SearchModelsByTag filter args))) =
   search_values key (request_url (outbound this (GetModels args)))) /\
  (obj_get "username" args = Some (str filter) ->
   search_values key
     (request_url (outbound this (SearchModelsByCreator filter args))) =
   search_values key (request_url (outbound this (GetModels args)))).
Proof.
  intros Hnd. unfold outbound, request_of.
  cbn [request_url endpoint bag].
  unfold searchModelsByTag_params, searchModelsByCreator_params.
  rewrite !(search_values_plain key this "/models") by reflexivity.
  rewrite (contributions_get key args) by assumption.
  split; intros Hfilter;
    (rewrite contributions_get
       by (apply NoDup_obj_spread; repeat constructor; simpl; tauto));
    rewrite obj_get_spread by assumption;
    destruct (obj_get key args) as [v|] eqn:Hget; auto;
    cbn [obj_get];
    match goal with
    | |- context [?name =? key] =>
        destruct (String.eqb_spec name key) as [<-|]; auto; congruence
    end.
Qed.

Lemma filter_tools_send_arguments_once_witness :
  let args := [("limit", num 5%Z); ("tag", str "anime")] in
  let this := mkClient None in
  NoDup (keys args) /\ obj_get "tag" args = Some (str "anime") /\
  search_values "tag"
    (request_url (outbound this (SearchModelsByTag "anime" args))) = ["anime"] /\
  request_url (outbound this (SearchModelsByTag "anime" args)) =
    "https://civitai.com/api/v1/models?tag=anime&limit=5".
Proof.
  intros args this.
  assert (Hnd : NoDup (keys args))
    by (repeat constructor; simpl; intuition discriminate).
  split; [exact Hnd|]. split; [reflexivity|]. split; [|reflexivity].
  rewrite (proj1 (filter_tools_send_arguments_once this args "anime" "tag"
                    Hnd) eq_refl).
  reflexivity.
Defined.

(** X8.  The tool [get_models_by_type] calls the client with the type read
    from the arguments and with all the arguments as options, so the
    request carries the type twice: as [types] from the client and as
    [type] from the arguments. *)
Theorem type_tool_sends_type_twice this args type :
  NoDup (keys args) ->
  obj_get "type" args = Some (str type) -> type <> "" ->
  obj_get "types" args = None ->
  let href := request_url (outbound this (GetModelsByType type args)) in
  search_values "types" href = [type] /\ search_values "type" href = [type].
Proof.
  intros Hnd Htype Hne Htypes href. unfold href, outbound, request_of.
  cbn [request_url endpoint bag]. unfold getModelsByType_params.
  rewrite !(search_values_plain _ this "/models") by reflexivity.
  rewrite !contributions_get
    by (apply NoDup_obj_spread; repeat constructor; simpl; tauto).
  rewrite !obj_get_spread by assumption.
  rewrite Htype, Htypes. cbn [obj_get String.eqb Ascii.eqb Bool.eqb].
  split; [reflexivity|].
  unfold contribution, str. destruct type; [congruence|reflexivity].
Qed.

Lemma type_tool_sends_type_twice_witness :
  let args := [("type", str "LORA"); ("limit", num 5%Z)] in
  let this := mkClient None in
  NoDup (keys args) /\ obj_get "type" args = Some (str "LORA") /\
  "LORA" <> "" /\ obj_get "types" args = None /\
  search_values "type"
    (request_url (outbound this (GetModelsByType "LORA" args))) = ["LORA"] /\
  request_url (outbound this (GetModelsByType "LORA" args)) =
    "https://civitai.com/api/v1/models?types=LORA&type=LORA&limit=5".
Proof.
  intros args this.
  assert (Hnd : NoDup (keys args))
    by (repeat constructor; simpl; intuition discriminate).
  assert (Hne : "LORA" <> "") by discriminate.
  split; [exact Hnd|]. split; [reflexivity|]. split; [exact Hne|].
  split; [reflexivity|]. split; [|reflexivity].
  exact (proj2 (type_tool_sends_type_twice this args "LORA" Hnd eq_refl Hne
                  eq_refl)).
Defined.

(** ** Schemas: arrays, unknown fields, outputs *)

Lemma z_array_items_Forall2 element items : forall i outs,
  z_array_items element i items = inr outs <->
  Forall2 (fun item out => element item = Valid out) items outs.
Proof.
  induction items as [|item items IH]; intros i outs; simpl.
  - split.
    + intros [= <-]. constructor.
    + intros H. now inversion H.
  - destruct (element item) as [out|issues] eqn:He.
    + destruct (z_array_items element (S i) items) as [more|outs'] eqn:Hrest.
      * split; [discriminate|]. intros H. inversion H as [|? ? ? ? _ Htl]; subst.
        apply (IH (S i)) in Htl. congruence.
      * split.
        -- intros [= <-]. constructor; auto. now apply (IH (S i)).
        -- intros H. inversion H as [|? o ? outs'' Ho Htl]; subst.
           apply (IH (S i)) in Htl. congruence.
    + split.
      * destruct (z_array_items element (S i) items); discriminate.
      * intros H. inversion H; subst. congruence.
Qed.

Lemma z_array_valid element items :
  is_valid (z_array element (VArr items)) =
  forallb (fun item => is_valid (element item)) items.
Proof.
  unfold z_array. generalize 0%nat.
  induction items as [|item items IH]; intros i; simpl; auto.
  rewrite <- (IH (S i)).
  destruct (element item), (z_array_items element (S i) items); reflexivity.
Qed.

Lemma z_array_inv element input out :
  z_array element input = Valid out ->
  exists items outs,
    input = VArr items /\ out = VArr outs /\
    Forall2 (fun item o => element item = Valid o) items outs.
Proof.
  unfold z_array. destruct input; try discriminate.
  destruct (z_array_items element 0 items) as [|outs] eqn:H; [discriminate|].
  intros [= <-]. exists items, outs. repeat split.
  now apply (z_array_items_Forall2 element items 0).
Qed.

Lemma has_prop_set_other key name v fields :
  name <> key -> has_prop key (set_prop name v fields) = has_prop key fields.
Proof.
  intros Hn. unfold has_prop.
  induction fields as [|[k old] fields IH]; simpl.
  - apply String.eqb_neq in Hn. now rewrite Hn.
  - destruct (String.eqb_spec k name) as [->|Hk]; simpl; auto.
    now rewrite IH.
Qed.

(** Two objects that agree, on the keys of a shape, in what the fields
    make of them run the shape alike. *)
Lemma z_object_fields_ext shape data data' :
  (forall key field, In (key, field) shape ->
     field (prop key data') = field (prop key data) /\
     forall out, field (prop key data) = Valid out ->
       is_undefined out && negb (has_prop key data') =
       is_undefined out && negb (has_prop key data)) ->
  z_object_fields shape data' = z_object_fields shape data.
Proof.
  induction shape as [|[key field] shape IH]; intros Hext; simpl; auto.
  rewrite IH by (intros k f Hin; apply Hext; simpl; auto).
  destruct (Hext key field (or_introl eq_refl)) as [Hrun Hskip].
  rewrite Hrun. destruct (field (prop key data)) as [out|issues]; auto.
  now rewrite (Hskip out eq_refl).
Qed.

Lemma existsb_unique {A} (shape : list (string * A)) key field
    (g : string * A -> bool) :
  NoDup (map fst shape) -> In (key, field) shape ->
  existsb (fun f => (fst f =? key) && g f) shape = g (key, field).
Proof.
  induction shape as [|[k f] shape IH]; intros Hnd Hin; [destruct Hin|].
  inversion Hnd as [|? ? Hfresh Hnd']; subst. simpl.
  destruct Hin as [[= -> ->]|Hin].
  - rewrite String.eqb_refl. simpl.
    destruct (g (key, field)); auto.
    apply not_true_is_false. intros Hex.
    apply existsb_exists in Hex as [[k' f'] [Hin' Hk']].
    apply andb_true_iff in Hk' as [Hk' _]. apply String.eqb_eq in Hk'.
    simpl in Hk'. subst k'. apply Hfresh.
    change key with (fst (key, f')). now apply in_map.
  - assert (Hk : (k =? key) = false).
    { apply String.eqb_neq. intros ->. apply Hfresh.
      change key with (fst (key, field)). now apply in_map. }
    rewrite Hk. simpl. now apply IH.
Qed.

(** X9.  A field that the Model schema does not name is ignored: setting
    it to any value changes neither whether a model is accepted nor the
    output. *)
Theorem ModelSchema_ignores_unknown_fields data key v :
  ~ In key (map fst ModelSchema_shape) ->
  ModelSchema (VObj (set_prop key v data)) = ModelSchema (VObj data).
Proof.
  intros Hnot. unfold ModelSchema, z_object.
  rewrite (z_object_fields_ext ModelSchema_shape data (set_prop key v data));
    auto.
  intros k field Hin.
  assert (Hk : key <> k).
  { intros ->. apply Hnot. change k with (fst (k, field)). now apply in_map. }
  rewrite prop_set, has_prop_set_other by assumption.
  apply String.eqb_neq in Hk. rewrite Hk. auto.
Qed.

Lemma ModelSchema_ignores_unknown_fields_witness :
  let data := [("id", VNum 1%Z); ("name", VStr "n");
               ("description", VStr "d"); ("type", VStr "LORA");
               ("nsfw", VBool false); ("tags", VArr []); ("mode", VNull);
               ("creator", VObj [("username", VStr "u")]);
               ("modelVersions", VArr [])] in
  ~ In "allowNoCredit" (map fst ModelSchema_shape) /\
  ModelSchema (VObj (set_prop "allowNoCredit" (VBool true) data)) =
  Valid (VObj data).
Proof.
  intros data.
  assert (Hnot : ~ In "allowNoCredit" (map fst ModelSchema_shape))
    by (cbn [In map fst ModelSchema_shape]; intuition discriminate).
  split; [exact Hnot|].
  rewrite (ModelSchema_ignores_unknown_fields data "allowNoCredit"
             (VBool true) Hnot).
  reflexivity.
Defined.

Lemma list_response_valid item data :
  is_valid (z_object [("items", z_array item); ("metadata", MetadataSchema)]
              (VObj data)) =
  match prop "items" data with
  | VArr items => forallb (fun i => is_valid (item i)) items
  | _ => false
  end && is_valid (MetadataSchema (prop "metadata" data)).
Proof.
  rewrite z_object_valid. cbn [forallb fst snd]. rewrite andb_true_r.
  f_equal. destruct (prop "items" data); try reflexivity.
  apply z_array_valid.
Qed.

(** X10.  A list response is accepted as a whole or not at all: exactly
    when [items] is an array whose every item the item schema accepts and
    [metadata] is accepted.  The accepted response has the outputs of the
    items, one for each item and in their order. *)
Theorem list_responses_all_or_nothing response item :
  In (response, item) list_responses ->
  (forall data,
     is_valid (response (VObj data)) =
     match prop "items" data with
     | VArr items => forallb (fun i => is_valid (item i)) items
     | _ => false
     end && is_valid (MetadataSchema (prop "metadata" data))) /\
  (forall input out,
     response input = Valid out ->
     exists data outs items outs_items,
       input = VObj data /\ out = VObj outs /\
       prop "items" data = VArr items /\
       prop "items" outs = VArr outs_items /\
       Forall2 (fun i o => item i = Valid o) items outs_items).
Proof.
  intros Hin.
  assert (Hshape : response =
                   z_object [("items", z_array item);
                             ("metadata", MetadataSchema)]).
  { cbn [In list_responses] in Hin.
    repeat (destruct Hin as [[= <- <-]|Hin]; [reflexivity|]). destruct Hin. }
  subst response. split; [apply list_response_valid|].
  intros input out Hrun.
  destruct (z_object_inv _ _ _ Hrun) as (data & outs & -> & -> & Hf).
  destruct (z_object_fields_prop _ _ outs "items" (z_array item) Hf)
    as [o [Ho Hp]].
  { repeat constructor; cbn [In map fst]; intuition discriminate. }
  { cbn [In]. tauto. }
  destruct (z_array_inv _ _ _ Ho) as (items & outs_items & Hi & -> & Hall).
  exists data, outs, items, outs_items. auto.
Qed.

Lemma list_responses_all_or_nothing_witness :
  let good := VObj [("name", VStr "anime")] in
  let bad := VObj [("name", VNum 3%Z)] in
  In (TagsResponseSchema, TagSchema) list_responses /\
  is_valid (TagsResponseSchema
              (VObj [("items", VArr [good; good]); ("metadata", VObj [])]))
    = true /\
  is_valid (TagsResponseSchema
              (VObj [("items", VArr [good; bad]); ("metadata", VObj [])]))
    = false.
Proof.
  intros good bad.
  assert (Hin : In (TagsResponseSchema, TagSchema) list_responses)
    by (cbn [In list_responses]; tauto).
  split; [exact Hin|].
  split;
    rewrite (proj1 (list_responses_all_or_nothing _ _ Hin)); reflexivity.
Defined.

(** ** Schemas: validating an output again *)

Create HintDb zod discriminated.

Lemma returns_input_idempotent s : returns_input s -> idempotent s.
Proof.
  intros Hs input out Hrun. pose proof (Hs _ _ Hrun) as ->. exact Hrun.
Qed.

Lemma z_number_returns_input : returns_input z_number.
Proof. intros [] out; simpl; congruence. Qed.

Lemma z_string_returns_input : returns_input z_string.
Proof. intros [] out; simpl; congruence. Qed.

Lemma z_boolean_returns_input : returns_input z_boolean.
Proof. intros [] out; simpl; congruence. Qed.

Lemma z_any_returns_input : returns_input z_any.
Proof. intros input out; unfold z_any; congruence. Qed.

Lemma z_enum_returns_input values : returns_input (z_enum values).
Proof.
  intros [] out; simpl; try congruence.
  destruct (existsb (String.eqb s) values); congruence.
Qed.

Lemma z_union_returns_input options :
  Forall returns_input options -> returns_input (z_union options).
Proof.
  induction 1 as [|option options Hoption _ IH]; intros input out; simpl.
  - discriminate.
  - destruct (option input) as [o|] eqn:Ho.
    + intros [= <-]. exact (Hoption _ _ Ho).
    + apply IH.
Qed.

Lemma z_optional_returns_input s :
  returns_input s -> returns_input (z_optional s).
Proof.
  intros Hs input out. unfold z_optional.
  destruct input; try apply Hs. congruence.
Qed.

Lemma z_nullable_returns_input s :
  returns_input s -> returns_input (z_nullable s).
Proof.
  intros Hs input out. unfold z_nullable.
  destruct input; try apply Hs. congruence.
Qed.

Lemma z_optional_idempotent s : idempotent s -> idempotent (z_optional s).
Proof.
  intros Hs input out. unfold z_optional.
  destruct input; [now intros [= <-]|..];
    intros Hrun; pose proof (Hs _ _ Hrun) as Hagain;
    destruct out; try reflexivity; exact Hagain.
Qed.

Lemma z_nullable_idempotent s : idempotent s -> idempotent (z_nullable s).
Proof.
  intros Hs input out. unfold z_nullable.
  destruct input; try (intros Hrun; pose proof (Hs _ _ Hrun) as Hagain;
                       destruct out; try reflexivity; exact Hagain).
  now intros [= <-].
Qed.

Lemma z_array_items_again element :
  idempotent element ->
  forall items outs,
    Forall2 (fun item out => element item = Valid out) items outs ->
    Forall2 (fun item out => element item = Valid out) outs outs.
Proof.
  intros He items outs H.
  induction H as [|item out items outs Hrun _ IH]; constructor; auto.
  exact (He _ _ Hrun).
Qed.

Lemma z_array_idempotent element :
  idempotent element -> idempotent (z_array element).
Proof.
  intros He input out Hrun.
  destruct (z_array_inv _ _ _ Hrun) as (items & outs & -> & -> & Hall).
  unfold z_array.
  pose proof (z_array_items_again element He items outs Hall) as Hagain.
  apply (z_array_items_Forall2 element outs 0) in Hagain.
  now rewrite Hagain.
Qed.

Lemma z_record_entries_again element :
  idempotent element ->
  forall fields outs,
    z_record_entries element fields = inr outs ->
    z_record_entries element outs = inr outs.
Proof.
  intros He fields.
  induction fields as [|[k v] fields IH]; intros outs; simpl.
  - now intros [= <-].
  - destruct (element v) as [out|] eqn:Hv;
      destruct (z_record_entries element fields) as [|outs'];
      try discriminate.
    intros [= <-]. simpl. now rewrite (He _ _ Hv), (IH outs' eq_refl).
Qed.

Lemma z_record_idempotent element :
  idempotent element -> idempotent (z_record element).
Proof.
  intros He input out. unfold z_record.
  destruct input; try discriminate.
  destruct (z_record_entries element fields) as [|outs] eqn:Hrun;
    [discriminate|].
  intros [= <-]. now rewrite (z_record_entries_again element He _ _ Hrun).
Qed.

Lemma z_object_idempotent shape :
  NoDup (map fst shape) ->
  Forall (fun f => idempotent (snd f)) shape ->
  idempotent (z_object shape).
Proof.
  intros Hnd Hfields input out Hrun.
  destruct (z_object_inv _ _ _ Hrun) as (data & outs & -> & -> & Hf).
  unfold z_object.
  rewrite (z_object_fields_ext shape data outs); [now rewrite Hf|].
  intros key field Hin.
  destruct (z_object_fields_prop shape data outs key field Hf Hnd Hin)
    as [o [Ho Hp]].
  rewrite Forall_forall in Hfields.
  pose proof (Hfields _ Hin _ _ Ho) as Hagain. cbn [snd] in Hagain.
  rewrite Hp, Ho. split; [exact Hagain|].
  intros out [= <-].
  pose proof (z_object_fields_has_prop shape data outs key Hf) as Hhas.
  rewrite (existsb_unique shape key field _ Hnd Hin) in Hhas.
  cbn [fst snd] in Hhas. rewrite Ho in Hhas. rewrite Hhas.
  destruct (is_undefined o), (has_prop key data); reflexivity.
Qed.

#[local] Hint Resolve returns_input_idempotent z_number_returns_input
  z_string_returns_input z_boolean_returns_input z_any_returns_input
  z_enum_returns_input z_optional_returns_input z_nullable_returns_input
  z_optional_idempotent z_nullable_idempotent z_array_idempotent
  z_record_idempotent : zod.

Ltac object_idempotent :=
  apply z_object_idempotent;
  [ repeat constructor; cbn [In map fst]; intuition discriminate
  | repeat constructor; cbn [snd]; eauto 8 with zod ].

Lemma NSFWLevel_or_number_returns_input :
  returns_input (z_union [NSFWLevel; z_number]).
Proof.
  apply z_union_returns_input. repeat constructor; auto with zod.
  apply z_enum_returns_input.
Qed.

Lemma number_or_string_returns_input :
  returns_input (z_union [z_number; z_string]).
Proof.
  apply z_union_returns_input. repeat constructor; auto with zod.
Qed.

#[local] Hint Resolve NSFWLevel_or_number_returns_input
  number_or_string_returns_input : zod.

Lemma enums_return_input :
  returns_input ModelType /\ returns_input FloatingPoint /\
  returns_input FileSize /\ returns_input FileFormat.
Proof. repeat split; apply z_enum_returns_input. Qed.

Lemma MetadataSchema_idempotent : idempotent MetadataSchema.
Proof. object_idempotent. Qed.

Lemma StatsSchema_idempotent : idempotent StatsSchema.
Proof. object_idempotent. Qed.

Lemma CreatorSchema_idempotent : idempotent CreatorSchema.
Proof. object_idempotent. Qed.

Lemma TagSchema_idempotent : idempotent TagSchema.
Proof. object_idempotent. Qed.

Lemma FileMetadataSchema_idempotent : idempotent FileMetadataSchema.
Proof.
  apply z_optional_idempotent. object_idempotent;
    apply z_optional_idempotent, z_nullable_idempotent,
      returns_input_idempotent, z_enum_returns_input.
Qed.

#[local] Hint Resolve MetadataSchema_idempotent StatsSchema_idempotent
  CreatorSchema_idempotent TagSchema_idempotent
  FileMetadataSchema_idempotent : zod.

Lemma ModelFileSchema_idempotent : idempotent ModelFileSchema.
Proof. object_idempotent. Qed.

Lemma ImageSchema_idempotent : idempotent ImageSchema.
Proof. object_idempotent. Qed.

#[local] Hint Resolve ModelFileSchema_idempotent ImageSchema_idempotent : zod.

Lemma ModelVersionSchema_idempotent : idempotent ModelVersionSchema.
Proof. object_idempotent. Qed.

Lemma ModelMode_idempotent : idempotent ModelMode.
Proof.
  apply z_optional_idempotent, z_nullable_idempotent,
    returns_input_idempotent, z_enum_returns_input.
Qed.

Lemma ModelType_idempotent : idempotent ModelType.
Proof. apply returns_input_idempotent, z_enum_returns_input. Qed.

#[local] Hint Resolve ModelVersionSchema_idempotent ModelMode_idempotent
  ModelType_idempotent : zod.

Lemma ModelSchema_idempotent : idempotent ModelSchema.
Proof. object_idempotent. Qed.

#[local] Hint Resolve ModelSchema_idempotent : zod.

Lemma ModelVersionResponseSchema_idempotent :
  idempotent ModelVersionResponseSchema.
Proof.
  object_idempotent. object_idempotent.
Qed.

(** X11.  Every schema of [types.ts] accepts what it has returned and
    returns it unchanged: a validated value can be validated again. *)
Theorem exported_schemas_idempotent s input out :
  In s exported_schemas -> s input = Valid out -> s out = Valid out.
Proof.
  intros Hin. revert input out. change (idempotent s).
  cbn [In exported_schemas] in Hin.
  repeat (destruct Hin as [<-|Hin]; [auto with zod|]);
    try (destruct Hin);
    try apply ModelVersionResponseSchema_idempotent;
    object_idempotent.
Qed.

Lemma exported_schemas_idempotent_witness :
  let input := VObj [("name", VStr "anime"); ("link", VStr "l");
                     ("other", VNull)] in
  let out := VObj [("name", VStr "anime"); ("link", VStr "l")] in
  In TagSchema exported_schemas /\ TagSchema input = Valid out /\
  TagSchema out = Valid out.
Proof.
  intros input out.
  assert (Hin : In TagSchema exported_schemas)
    by (cbn [In exported_schemas]; tauto).
  assert (Hrun : TagSchema input = Valid out) by reflexivity.
  split; [exact Hin|]. split; [exact Hrun|].
  exact (exported_schemas_idempotent TagSchema input out Hin Hrun).
Defined.

(** ** What an accepted model looks like *)

Lemma z_string_inv input out :
  z_string input = Valid out -> exists s, out = VStr s.
Proof. destruct input; simpl; try discriminate. intros [= <-]. eauto. Qed.

Lemma z_optional_inv s input out :
  z_optional s input = Valid out -> out = VUndefined \/ s input = Valid out.
Proof. destruct input; simpl; auto. intros [= <-]. auto. Qed.

Lemma Forall2_outputs {A B} (R : A -> B -> Prop) items outs :
  Forall2 R items outs -> Forall (fun out => exists item, R item out) outs.
Proof.
  induction 1; constructor; eauto.
Qed.

Ltac shape_nodup :=
  repeat constructor; cbn [In map fst]; intuition discriminate.

(** The field of a key in the output of an object schema. *)
Ltac output_field Hf key field o Ho Hp :=
  destruct (z_object_fields_prop _ _ _ key field Hf) as [o [Ho Hp]];
  [shape_nodup | cbn [In]; tauto |].

Lemma ModelFileSchema_output input file :
  ModelFileSchema input = Valid file -> exists fields, file = VObj fields.
Proof.
  intros Hrun.
  destruct (z_object_inv _ _ _ Hrun) as (data & outs & _ & -> & _). eauto.
Qed.

Lemma ModelVersionSchema_output input version :
  ModelVersionSchema input = Valid version ->
  exists fields,
    version = VObj fields /\
    (prop "files" fields = VUndefined \/
     exists files,
       prop "files" fields = VArr files /\
       Forall (fun file => exists ffields, file = VObj ffields) files) /\
    (prop "images" fields = VUndefined \/
     exists images, prop "images" fields = VArr images).
Proof.
  intros Hrun.
  destruct (z_object_inv _ _ _ Hrun) as (data & outs & _ & -> & Hf).
  exists outs. split; [reflexivity|]. split.
  - output_field Hf "files" (z_optional (z_array ModelFileSchema)) o Ho Hp.
    apply z_optional_inv in Ho as [->|Ho]; [now left|right].
    destruct (z_array_inv _ _ _ Ho) as (items & files & _ & -> & Hall).
    exists files. split; [exact Hp|].
    apply Forall2_outputs in Hall.
    eapply Forall_impl; [|exact Hall].
    intros file [item Hitem]. exact (ModelFileSchema_output _ _ Hitem).
  - output_field Hf "images" (z_optional (z_array ImageSchema)) o Ho Hp.
    apply z_optional_inv in Ho as [->|Ho]; [now left|right].
    destruct (z_array_inv _ _ _ Ho) as (items & images & _ & -> & _).
    now exists images.
Qed.

Lemma ModelSchema_output input model :
  ModelSchema input = Valid model ->
  exists fields description tags creator versions,
    model = VObj fields /\
    prop "description" fields = VStr description /\
    prop "tags" fields = VArr tags /\
    prop "creator" fields = VObj creator /\
    prop "modelVersions" fields = VArr versions /\
    Forall (fun version =>
              exists item, ModelVersionSchema item = Valid version) versions.
Proof.
  intros Hrun.
  destruct (z_object_inv _ _ _ Hrun) as (data & outs & _ & -> & Hf).
  unfold ModelSchema_shape in Hf.
  output_field Hf "description" z_string d Hd Hpd.
  output_field Hf "tags" (z_array z_string) t Ht Hpt.
  output_field Hf "creator" CreatorSchema c Hc Hpc.
  output_field Hf "modelVersions" (z_array ModelVersionSchema) v Hv Hpv.
  apply z_string_inv in Hd as [description ->].
  destruct (z_array_inv _ _ _ Ht) as (? & tags & _ & -> & _).
  destruct (z_object_inv _ _ _ Hc) as (? & creator & _ & -> & _).
  destruct (z_array_inv _ _ _ Hv) as (? & versions & _ & -> & Hall).
  exists outs, description, tags, creator, versions.
  repeat split; auto. exact (Forall2_outputs _ _ _ Hall).
Qed.

(** ** The formatters on accepted responses *)






Lemma traverse_None f items :
  traverse f items = None <-> exists item, In item items /\ f item = None.
Proof.
  induction items as [|item items IH]; simpl.
  - split; [discriminate|]. intros [? [[] _]].
  - destruct (f item) as [out|] eqn:Hitem.
    + destruct (traverse f items) as [outs|].
      * split; [discriminate|].
        intros [x [[<-|Hin] Hx]]; [congruence|].
        assert (H : @None (list value) = None) by reflexivity.
        destruct IH as [_ IH]. discriminate IH. eauto.
      * split; auto. intros _. destruct IH as [IH _].
        destruct (IH eq_refl) as [x [Hin Hx]]. eauto.
    + split; auto. intros _. eauto.
Qed.

Lemma traverse_Forall2 f items outs :
  traverse f items = Some outs <->
  Forall2 (fun item out => f item = Some out) items outs.
Proof.
  revert outs. induction items as [|item items IH]; intros outs; simpl.
  - split.
    + intros [= <-]. constructor.
    + intros H. now inversion H.
  - destruct (f item) as [out|] eqn:Hitem.
    + destruct (traverse f items) as [outs'|].
      * split.
        -- intros [= <-]. constructor; auto. now apply IH.
        -- intros H. inversion H as [|? o ? os Ho Hrest]; subst.
           apply IH in Hrest. congruence.
      * split; [discriminate|].
        intros H. inversion H as [|? o ? os Ho Hrest]; subst.
        apply IH in Hrest. discriminate.
    + split; [discriminate|]. intros H. inversion H; subst. congruence.
Qed.

Lemma formatFile_object fields : formatFile (VObj fields) <> None.
Proof. discriminate. Qed.

(** A version the schema accepted is formatted unless it lacks [files] or
    [images]. *)
Lemma formatVersion_of_valid input version :
  ModelVersionSchema input = Valid version ->
  formatVersion version = None <->
  exists fields,
    version = VObj fields /\
    (prop "files" fields = VUndefined \/ prop "images" fields = VUndefined).
Proof.
  intros Hrun.
  destruct (ModelVersionSchema_output _ _ Hrun)
    as (fields & -> & Hfiles & Himages).
  unfold formatVersion. cbn [member].
  split.
  - intros Hnone. exists fields. split; [reflexivity|].
    destruct Hfiles as [Hfiles|(files & Hfiles & Hobjects)]; [now left|].
    destruct Himages as [Himages|(images & Himages)]; [now right|].
    exfalso. rewrite Hfiles, Himages in Hnone. cbn [array_map member] in Hnone.
    destruct (traverse formatFile files) as [outs|] eqn:Htraverse;
      [discriminate Hnone|].
    apply traverse_None in Htraverse as [file [Hin Hfile]].
    rewrite Forall_forall in Hobjects.
    destruct (Hobjects file Hin) as [ffields ->].
    now apply (formatFile_object ffields).
  - intros (fields' & [= <-] & [Hmissing|Hmissing]).
    + now rewrite Hmissing.
    + rewrite Hmissing.
      destruct (array_map formatFile (prop "files" fields)); reflexivity.
Qed.

(** X12.  [formatSingleModel] throws on a model the Model schema accepted
    exactly when one of its versions lacks [files] or [images], which the
    schema leaves optional. *)
Theorem formatSingleModel_throws_iff input model :
  ModelSchema input = Valid model ->
  formatSingleModel model = None <->
  exists fields versions version vfields,
    model = VObj fields /\ prop "modelVersions" fields = VArr versions /\
    In version versions /\ version = VObj vfields /\
    (prop "files" vfields = VUndefined \/ prop "images" vfields = VUndefined).
Proof.
  intros Hrun.
  destruct (ModelSchema_output _ _ Hrun)
    as (fields & description & tags & creator & versions & -> & _ & _
        & Hcreator & Hversions & Hall).
  unfold formatSingleModel. cbn [member]. rewrite Hcreator, Hversions.
  cbn [member array_map].
  rewrite Forall_forall in Hall.
  split.
  - intros Hnone.
    destruct (traverse formatVersion versions) as [outs|] eqn:Htraverse;
      [discriminate Hnone|].
    apply traverse_None in Htraverse as [version [Hin Hversion]].
    destruct (Hall version Hin) as [item Hitem].
    apply (formatVersion_of_valid _ _ Hitem) in Hversion
      as (vfields & -> & Hmissing).
    exists fields, versions, (VObj vfields), vfields. auto.
  - intros (fields' & versions' & version & vfields & [= <-] & Hv & Hin
            & -> & Hmissing).
    rewrite Hversions in Hv. injection Hv as <-.
    destruct (Hall _ Hin) as [item Hitem].
    assert (Hversion : formatVersion (VObj vfields) = None)
      by (apply (formatVersion_of_valid _ _ Hitem); eauto).
    assert (Htraverse : traverse formatVersion versions = None)
      by (apply traverse_None; eauto).
    now rewrite Htraverse.
Qed.

Lemma formatSingleModel_throws_iff_witness :
  let version := VObj [("id", VNum 7%Z); ("name", VStr "v1")] in
  let model := VObj [("id", VNum 1%Z); ("name", VStr "n");
                     ("description", VStr "d"); ("type", VStr "LORA");
                     ("nsfw", VBool false); ("tags", VArr []);
                     ("creator", VObj [("username", VStr "u")]);
                     ("modelVersions", VArr [version])] in
  ModelSchema model = Valid model /\
  formatSingleModel model = None /\
  formatSingleModel (minimal_model 1%Z "n" "d" "LORA" false "u") <> None.
Proof.
  intros version model.
  assert (Hrun : ModelSchema model = Valid model) by reflexivity.
  split; [exact Hrun|]. split; [|discriminate].
  apply (formatSingleModel_throws_iff model model Hrun).
  exists [("id", VNum 1%Z); ("name", VStr "n");
          ("description", VStr "d"); ("type", VStr "LORA");
          ("nsfw", VBool false); ("tags", VArr []);
          ("creator", VObj [("username", VStr "u")]);
          ("modelVersions", VArr [version])],
    [version], version, [("id", VNum 7%Z); ("name", VStr "v1")].
  repeat split; cbn; auto.
Defined.



Lemma formatModel_shown input model :
  ModelSchema input = Valid model -> exists shown, formatModel model = Some shown.
Proof.
  intros Hrun.
  destruct (ModelSchema_output _ _ Hrun)
    as (fields & description & tags & creator & versions & -> & Hd & Ht
        & Hc & Hv & Hall).
  unfold formatModel. cbn [member]. rewrite Hv, Hc, Hd, Ht.
  cbn [first_element member slice_to].
  destruct versions as [|version versions]; [cbn; eauto|].
  inversion Hall as [|? ? [item Hitem] _]; subst.
  destruct (ModelVersionSchema_output _ _ Hitem) as (vfields & -> & _).
  cbn [hd truthy member]. eauto.
Qed.

Lemma MetadataSchema_output input metadata :
  MetadataSchema input = Valid metadata ->
  exists fields,
    metadata = VObj fields /\
    (prop "totalItems" fields = VUndefined \/
     exists n, prop "totalItems" fields = VNum n) /\
    (prop "nextPage" fields = VUndefined \/
     exists s, prop "nextPage" fields = VStr s).
Proof.
  intros Hrun.
  destruct (z_object_inv _ _ _ Hrun) as (data & outs & _ & -> & Hf).
  exists outs. split; [reflexivity|]. split.
  - output_field Hf "totalItems" (z_optional z_number) o Ho Hp.
    apply z_optional_inv in Ho as [->|Ho]; [now left|right].
    destruct (prop "totalItems" data); try discriminate.
    injection Ho as <-. eauto.
  - output_field Hf "nextPage" (z_optional z_string) o Ho Hp.
    apply z_optional_inv in Ho as [->|Ho]; [now left|right].
    apply z_string_inv in Ho as [s ->]. eauto.
Qed.

(** X14.  [formatModelsResponse] does not throw on a response the models
    schema accepted and formats every item.  The total it shows is the
    count upstream gave when that is a number other than 0 and else the
    number of items of the page; it shows a next page exactly when
    [nextPage] is a non-empty string. *)
Theorem formatModelsResponse_of_valid input response :
  ModelsResponseSchema input = Valid response ->
  exists fields items metadata models pagination,
    response = VObj fields /\
    prop "items" fields = VArr items /\
    prop "metadata" fields = VObj metadata /\
    formatModelsResponse response =
      Some (VObj [("models", VArr models);
                  ("pagination", VObj pagination)]) /\
    Forall2 (fun item shown => formatModel item = Some shown) items models /\
    (forall n, prop "totalItems" metadata = VNum n -> n <> 0%Z ->
               prop "totalItems" pagination = VNum n) /\
    (prop "totalItems" metadata = VUndefined \/
     prop "totalItems" metadata = VNum 0%Z ->
     prop "totalItems" pagination = VNum (Z.of_nat (List.length items))) /\
    (prop "hasNextPage" pagination = VBool true <->
     exists s, prop "nextPage" metadata = VStr s /\ s <> "").
Proof.
  intros Hrun.
  destruct (z_object_inv _ _ _ Hrun) as (data & fields & _ & -> & Hf).
  output_field Hf "items" (z_array ModelSchema) i Hi Hpi.
  output_field Hf "metadata" MetadataSchema m Hm Hpm.
  destruct (z_array_inv _ _ _ Hi) as (inputs & items & _ & -> & Hall).
  destruct (MetadataSchema_output _ _ Hm)
    as (metadata & -> & Htotal & Hnext).
  assert (Hmodels : exists models,
             traverse formatModel items = Some models).
  { destruct (traverse formatModel items) as [models|] eqn:Htraverse;
      [eauto|].
    apply traverse_None in Htraverse as [item [Hin Hitem]].
    apply Forall2_outputs in Hall. rewrite Forall_forall in Hall.
    destruct (Hall item Hin) as [raw Hraw].
    destruct (formatModel_shown raw item Hraw) as [shown Hshown].
    congruence. }
  destruct Hmodels as [models Hmodels].
  pose proof (proj1 (traverse_Forall2 _ _ _) Hmodels) as Hshown.
  assert (Hcount : List.length models = List.length items)
    by (symmetry; exact (Forall2_length Hshown)).
  exists fields, items, metadata, models.
  eexists. split; [reflexivity|]. split; [exact Hpi|]. split; [exact Hpm|].
  split.
  { unfold formatModelsResponse. cbn [member]. rewrite Hpi, Hpm.
    cbn [array_map]. rewrite Hmodels. cbn [option_map member].
    reflexivity. }
  split; [exact Hshown|].
  cbn [prop String.eqb Ascii.eqb Bool.eqb]. rewrite Hcount.
  split; [|split].
  - intros n -> Hn. unfold or_else. cbn [truthy].
    apply Z.eqb_neq in Hn. now rewrite Hn.
  - intros [-> | ->]; reflexivity.
  - split.
    + intros [= Htruthy].
      destruct Hnext as [Hnext|[s Hnext]]; rewrite Hnext in Htruthy;
        [discriminate|].
      exists s. split; [exact Hnext|]. cbn [truthy] in Htruthy.
      intros ->. discriminate.
    + intros (s & -> & Hs). cbn [truthy].
      destruct s; [congruence|reflexivity].
Qed.

Lemma formatModelsResponse_of_valid_witness :
  let model := minimal_model 1%Z "n" "d" "LORA" false "u" in
  let response :=
    VObj [("items", VArr [model; model]);
          ("metadata", VObj [("nextPage", VStr "https://next")])] in
  ModelsResponseSchema response = Valid response /\
  (exists models pagination,
     formatModelsResponse response =
       Some (VObj [("models", VArr models);
                   ("pagination", VObj pagination)]) /\
     List.length models = 2%nat /\
     prop "totalItems" pagination = VNum 2%Z /\
     prop "hasNextPage" pagination = VBool true).
Proof.
  intros model response.
  assert (Hrun : ModelsResponseSchema response = Valid response)
    by reflexivity.
  split; [exact Hrun|].
  destruct (formatModelsResponse_of_valid response response Hrun)
    as (fields & items & metadata & models & pagination & [= <-] & Hi & Hm
        & Hf & Hall & _ & Htotal & Hnext).
  cbn in Hi, Hm. injection Hi as <-. injection Hm as <-.
  exists models, pagination. split; [exact Hf|]. split; [|split].
  - symmetry. exact (Forall2_length Hall).
  - apply Htotal. now left.
  - apply Hnext. exists "https://next". split; [reflexivity|discriminate].
Defined.

(** ** Required fields *)

(** X15.  The Model schema rejects an object that lacks any of [id],
    [name], [description], [type], [nsfw], [tags], [creator] and
    [modelVersions]; [mode], [stats] and [poi] may be missing. *)
Theorem ModelSchema_required_fields :
  (forall data key,
     In key ModelSchema_required -> has_prop key data = false ->
     exists issues, ModelSchema (VObj data) = Invalid issues) /\
  (forall id name description type nsfw username,
     In type ModelType_values ->
     let model := VObj [("id", VNum id); ("name", VStr name);
                        ("description", VStr description);
                        ("type", VStr type); ("nsfw", VBool nsfw);
                        ("tags", VArr []);
                        ("creator", VObj [("username", VStr username)]);
                        ("modelVersions", VArr [])] in
     ModelSchema model = Valid model).
Proof.
  split.
  - intros data key Hkey Hmissing.
    assert (Hrej : is_valid (ModelSchema (VObj data)) = false).
    { apply prop_missing in Hmissing.
      cbn [In ModelSchema_required] in Hkey.
      repeat (destruct Hkey as [<-|Hkey];
              [match type of Hmissing with
               | prop ?k _ = _ =>
                   eapply (z_object_rejects ModelSchema_shape k)
               end;
               [cbn [In ModelSchema_shape]; repeat (try (left; reflexivity);
                                                    right)
               | rewrite Hmissing; reflexivity]|]).
      destruct Hkey. }
    destruct (ModelSchema (VObj data)) as [|issues]; [discriminate|].
    now exists issues.
  - intros id name description type nsfw username Htype model.
    cbn [In ModelType_values] in Htype. unfold model.
    repeat (destruct Htype as [<-|Htype]; [reflexivity|]).
    destruct Htype.
Qed.

Lemma ModelSchema_required_fields_witness :
  let data := [("id", VNum 1%Z); ("name", VStr "n");
               ("description", VStr "d"); ("type", VStr "LORA");
               ("nsfw", VBool false); ("tags", VArr []);
               ("modelVersions", VArr [])] in
  In "creator" ModelSchema_required /\ has_prop "creator" data = false /\
  (exists issues, ModelSchema (VObj data) = Invalid issues) /\
  In "Poses" ModelType_values.
Proof.
  intros data.
  assert (Hkey : In "creator" ModelSchema_required)
    by (cbn [In ModelSchema_required]; tauto).
  split; [exact Hkey|]. split; [reflexivity|].
  split; [|cbn [In ModelType_values]; tauto].
  exact (proj1 ModelSchema_required_fields data "creator" Hkey eq_refl).
Defined.

(** X16.  A version response, unlike a version inside a model, must have
    its files, images, trained words and model: every accepted one has
    them as arrays and an object with a model type, while a version
    without them is accepted inside a model. *)
Theorem ModelVersionResponseSchema_requires_more :
  (forall input out,
     ModelVersionResponseSchema input = Valid out ->
     exists fields files images words model type,
       out = VObj fields /\
       prop "files" fields = VArr files /\
       prop "images" fields = VArr images /\
       prop "trainedWords" fields = VArr words /\
       prop "model" fields = VObj model /\
       prop "type" model = VStr type /\ In type ModelType_values) /\
  (forall data key,
     In key ["files"; "images"; "trainedWords"; "model"; "stats"] ->
     has_prop key data = false ->
     exists issues, ModelVersionResponseSchema (VObj data) = Invalid issues) /\
  (forall id name,
     let version := VObj [("id", VNum id); ("name", VStr name)] in
     ModelVersionSchema version = Valid version).
Proof.
  split; [|split].
  - intros input out Hrun.
    destruct (z_object_inv _ _ _ Hrun) as (data & fields & _ & -> & Hf).
    output_field Hf "files" (z_array ModelFileSchema) f Hfi Hpf.
    output_field Hf "images" (z_array ImageSchema) i Him Hpi.
    output_field Hf "trainedWords" (z_array z_string) w Hw Hpw.
    output_field Hf "model"
      (z_object [("name", z_string); ("type", ModelType);
                 ("nsfw", z_boolean); ("poi", z_optional z_boolean);
                 ("mode", ModelMode)]) m Hmo Hpm.
    destruct (z_array_inv _ _ _ Hfi) as (? & files & _ & -> & _).
    destruct (z_array_inv _ _ _ Him) as (? & images & _ & -> & _).
    destruct (z_array_inv _ _ _ Hw) as (? & words & _ & -> & _).
    destruct (z_object_inv _ _ _ Hmo) as (mdata & model & _ & -> & Hmf).
    output_field Hmf "type" ModelType t Ht Hpt.
    assert (Hvalid : is_valid (ModelType (prop "type" mdata)) = true)
      by (now rewrite Ht).
    apply ModelType_accepts in Hvalid as [type [Htype Hin]].
    pose proof (z_enum_returns_input _ _ _ Ht) as Hsame.
    rewrite Hsame, Htype in Hpt.
    exists fields, files, images, words, model, type.
    repeat split; assumption.
  - intros data key Hkey Hmissing.
    assert (Hrej : is_valid (ModelVersionResponseSchema (VObj data)) = false).
    { apply prop_missing in Hmissing. cbn [In] in Hkey.
      unfold ModelVersionResponseSchema.
      repeat (destruct Hkey as [<-|Hkey];
              [match type of Hmissing with
               | prop ?k _ = _ => eapply (z_object_rejects _ k)
               end;
               [cbn [In]; repeat (try (left; reflexivity); right)
               | rewrite Hmissing; reflexivity]|]).
      destruct Hkey. }
    destruct (ModelVersionResponseSchema (VObj data)) as [|issues];
      [discriminate|].
    now exists issues.
  - reflexivity.
Qed.

Lemma ModelVersionResponseSchema_requires_more_witness :
  let data := [("id", VNum 7%Z); ("name", VStr "v1")] in
  In "files" ["files"; "images"; "trainedWords"; "model"; "stats"] /\
  has_prop "files" data = false /\
  (exists issues, ModelVersionResponseSchema (VObj data) = Invalid issues) /\
  ModelVersionSchema (VObj data) = Valid (VObj data).
Proof.
  intros data.
  assert (Hkey : In "files" ["files"; "images"; "trainedWords"; "model";
                             "stats"]) by (cbn [In]; tauto).
  destruct ModelVersionResponseSchema_requires_more as [_ [Hreject Hinside]].
  split; [exact Hkey|]. split; [reflexivity|].
  split; [exact (Hreject data "files" Hkey eq_refl)|].
  exact (Hinside 7%Z "v1").
Defined.

(** ** The text of the download tool *)

Lemma includes_here needle rest : includes needle (needle +:+ rest) = true.
Proof.
  assert (Hprefix : String.prefix needle (needle +:+ rest) = true).
  { induction needle as [|a needle IH]; [now destruct rest|].
    cbn [String.append String.prefix].
    destruct (Ascii.ascii_dec a a); [exact IH|congruence]. }
  revert Hprefix. generalize (needle +:+ rest). intros hay Hprefix.
  destruct hay; cbn [includes]; now rewrite Hprefix.
Qed.

Lemma includes_after needle before rest :
  includes needle (before +:+ needle +:+ rest) = true.
Proof.
  induction before as [|a before IH]; [exact (includes_here needle rest)|].
  cbn [String.append includes]. rewrite IH. apply orb_true_r.
Qed.

(** X17.  The text the tool [get_download_url] returns contains the
    download URL, and with it the configured token in clear. *)
Theorem getDownloadUrl_text_shows_token this modelVersionId :
  includes (getDownloadUrl this modelVersionId)
           (getDownloadUrl_text this modelVersionId) = true /\
  (forall key, configured_token this = Some key ->
     includes ("?token=" +:+ urlencode key)
              (getDownloadUrl_text this modelVersionId) = true).
Proof.
  assert (Hshape : exists before rest,
             getDownloadUrl_text this modelVersionId =
             before +:+ getDownloadUrl this modelVersionId +:+ rest).
  { exists ("Download URL for model version "
            +:+ number_toString modelVersionId +:+ ":\n\n").
    eexists. unfold getDownloadUrl_text. cbv zeta.
    rewrite !append_assoc. reflexivity. }
  destruct Hshape as (before & rest & Hshape). rewrite Hshape.
  split; [apply includes_after|].
  intros key Hkey. rewrite getDownloadUrl_closed_form, Hkey.
  assert (Hagain : exists before' rest',
             before +:+
             (baseUrl +:+ "/download/models/"
              +:+ number_toString modelVersionId
              +:+ "?token=" +:+ urlencode key) +:+ rest =
             before' +:+ ("?token=" +:+ urlencode key) +:+ rest').
  { exists (before +:+ baseUrl +:+ "/download/models/"
            +:+ number_toString modelVersionId), rest.
    now rewrite !append_assoc. }
  destruct Hagain as (before' & rest' & ->). apply includes_after.
Qed.

Lemma getDownloadUrl_text_shows_token_witness :
  configured_token (mkClient (Some "abc")) = Some "abc" /\
  includes "?token=abc" (getDownloadUrl_text (mkClient (Some "abc")) 12345%Z)
    = true.
Proof.
  split; [reflexivity|].
  exact (proj2 (getDownloadUrl_text_shows_token (mkClient (Some "abc"))
                  12345%Z) "abc" eq_refl).
Defined.
